(** * The command registry and the server dispatcher

    A shallow embedding of [packages/core/src/shared/core/registry.ts]
    (class [BaseRegistry]) and of [src/server/dispatcher.ts]
    (class [ServerDispatcher]).

    The registry keeps four tables: [commands], [groups], [types] and the
    child-path cache [cachedPaths].  Group objects are mutable and shared
    between the [groups] table and their parent's child table, so they live
    in an explicit object store and are named by references. *)

From Stdlib Require Import String Ascii NArith List Bool OrdersEx.
From stdpp Require Import base option list gmap strings sorting.

Local Open Scope string_scope.
Local Open Scope list_scope.

(** ** Strings as the Luau runtime sees them *)

(** [string.lower]: the letters [A]..[Z] are mapped to [a]..[z], every other
    byte is kept. *)
Definition lower_ascii (c : ascii) : ascii :=
  let n := N_of_ascii c in
  if ((65 <=? n) && (n <=? 90))%N then ascii_of_N (n + 32) else c.

Fixpoint lower (s : string) : string :=
  match s with
  | EmptyString => EmptyString
  | String c s' => String (lower_ascii c) (lower s')
  end.

(** One byte of the character class [[a-zA-Z0-9_]]. *)
Definition is_word_char (c : ascii) : bool :=
  let n := N_of_ascii c in
  (((97 <=? n) && (n <=? 122)) || ((65 <=? n) && (n <=? 90)) ||
   ((48 <=? n) && (n <=? 57)) || (n =? 95))%N.

Fixpoint all_word_chars (s : string) : bool :=
  match s with
  | EmptyString => true
  | String c s' => is_word_char c && all_word_chars s'
  end.

(** [part.match("^[a-zA-Z0-9_]+$")[0]] is truthy: the part is not empty and
    all its bytes are in the class. *)
Definition matches_word (part : string) : bool :=
  match part with
  | EmptyString => false
  | String _ _ => all_word_chars part
  end.

(** ** Registry paths *)

(** Modelled from the spec: the path value type ([RegistryPath] and
    [ImmutableRegistryPath] of [./path], not among the sources).  A path is
    its ordered sequence of segments; the canonical string joins them with
    the separator; [parent] drops the last segment (the empty path for a
    path of one segment); [slice p 0 i] keeps the segments of index [0] to
    [i], both included, which is what the cache walk of [cachePath] relies
    on: the list at the key of the first [i] segments receives the first
    [i + 1] segments; two paths are equal when their canonical strings
    are. *)
Module RegistryPath.

Definition t : Type := list string.

Definition size (p : t) : nat := length p.

Definition toString (p : t) : string := String.concat "/" p.

Definition slice (p : t) (from to : nat) : t := drop from (take (S to) p).

Definition parent (p : t) : t := removelast p.

(** The last segment.  Every path stored in the cache has at least one
    segment; the empty string stands for the missing segment of the empty
    path. *)
Definition tail (p : t) : string := List.last p "".

Definition append (p : t) (part : string) : t := p ++ [part].

Definition equals (p q : t) : bool := String.eqb (toString p) (toString q).

Definition iter (p : t) : list string := p.

End RegistryPath.

Abbreviation RegistryPath := RegistryPath.t.

(** ** Argument types, options, commands and groups *)

(** An argument type descriptor (the [ArgumentType] interface checked by
    [argTypeSchema]): a name, the [expensive] flag, the transform and the
    optional suggestion generator. *)
Record ArgumentType := {
  at_name : string;
  at_expensive : bool;
  at_transform : string -> option string;
  at_suggestions : option (string -> list string);
}.

Record CommandOptions := {
  co_name : string;
  co_aliases : list string;
}.

Record GroupOptions := {
  go_name : string;
  go_parent : option (list string);
}.

(** Modelled from the spec: the command object ([BaseCommand] and
    [ExecutableCommand] of [./command], not among the sources).  A command
    owns its primary path and its alias paths and is one logical entity;
    [c_id] is the identity of the object, given to it when it is created.
    The callback and the guards play no part in registration. *)
Record BaseCommand := {
  c_id : nat;
  c_path : RegistryPath;
  c_aliases : list RegistryPath;
  c_options : CommandOptions;
}.

Definition getPath (c : BaseCommand) : RegistryPath := c_path c.
Definition getPaths (c : BaseCommand) : list RegistryPath := c_path c :: c_aliases c.

(** A reference to a group object in the store. *)
Definition GroupRef : Type := nat.

(** Modelled from the spec: the group object ([CommandGroup] of
    [./command], not among the sources): its path, its options, the table
    of its child groups keyed by the child's name, and the list of its
    child commands.  [getCommands] and [getGroups] hand out a fresh array
    of the children at the time of the call. *)
Record CommandGroup := {
  g_path : RegistryPath;
  g_options : GroupOptions;
  g_groups : list (string * GroupRef);
  g_commands : list BaseCommand;
}.

Module CommandGroup.

Definition create (path : RegistryPath) (options : GroupOptions) : CommandGroup :=
  {| g_path := path; g_options := options; g_groups := []; g_commands := [] |}.

Definition hasGroup (g : CommandGroup) (name : string) : bool :=
  existsb (fun e => String.eqb (fst e) name) (g_groups g).

Definition removeName (name : string) (l : list (string * GroupRef)) :=
  List.filter (fun e => negb (String.eqb (fst e) name)) l.

Definition addGroup (name : string) (child : GroupRef) (g : CommandGroup) : CommandGroup :=
  {| g_path := g_path g; g_options := g_options g;
     g_groups := removeName name (g_groups g) ++ [(name, child)];
     g_commands := g_commands g |}.

Definition removeGroup (name : string) (g : CommandGroup) : CommandGroup :=
  {| g_path := g_path g; g_options := g_options g;
     g_groups := removeName name (g_groups g);
     g_commands := g_commands g |}.

Definition addCommand (c : BaseCommand) (g : CommandGroup) : CommandGroup :=
  {| g_path := g_path g; g_options := g_options g;
     g_groups := g_groups g;
     g_commands := g_commands g ++ [c] |}.

Definition removeCommand (c : BaseCommand) (g : CommandGroup) : CommandGroup :=
  {| g_path := g_path g; g_options := g_options g;
     g_groups := g_groups g;
     g_commands := List.filter (fun c' => negb (Nat.eqb (c_id c') (c_id c))) (g_commands g) |}.

Definition getCommands (g : CommandGroup) : list BaseCommand := g_commands g.

Definition getGroups (g : CommandGroup) : list GroupRef := map snd (g_groups g).

End CommandGroup.

(** ** The registry state *)

Inductive LogLevel := Debug | Warn | Error.

(** What the four signals of the registry deliver, in the order fired. *)
Inductive Event :=
  | commandRegistered (c : BaseCommand)
  | groupRegistered (path : RegistryPath)
  | commandUnregistered (c : BaseCommand)
  | groupUnregistered (path : RegistryPath).

Record Registry := {
  commands : gmap string BaseCommand;
  groups : gmap string GroupRef;
  types : gmap string ArgumentType;
  cachedPaths : gmap string (list RegistryPath);
  store : gmap GroupRef CommandGroup;
  allocated : nat;
  fired : list Event;
  logged : list (LogLevel * string);
}.

Definition empty_registry : Registry :=
  {| commands := ∅; groups := ∅; types := ∅; cachedPaths := ∅; store := ∅;
     allocated := 0; fired := []; logged := [] |}.

Definition with_commands (f : gmap string BaseCommand -> gmap string BaseCommand) (r : Registry) :=
  {| commands := f (commands r); groups := groups r; types := types r;
     cachedPaths := cachedPaths r; store := store r; allocated := allocated r;
     fired := fired r; logged := logged r |}.

Definition with_groups (f : gmap string GroupRef -> gmap string GroupRef) (r : Registry) :=
  {| commands := commands r; groups := f (groups r); types := types r;
     cachedPaths := cachedPaths r; store := store r; allocated := allocated r;
     fired := fired r; logged := logged r |}.

Definition with_types (f : gmap string ArgumentType -> gmap string ArgumentType) (r : Registry) :=
  {| commands := commands r; groups := groups r; types := f (types r);
     cachedPaths := cachedPaths r; store := store r; allocated := allocated r;
     fired := fired r; logged := logged r |}.

Definition with_cachedPaths
    (f : gmap string (list RegistryPath) -> gmap string (list RegistryPath)) (r : Registry) :=
  {| commands := commands r; groups := groups r; types := types r;
     cachedPaths := f (cachedPaths r); store := store r; allocated := allocated r;
     fired := fired r; logged := logged r |}.

Definition with_store (f : gmap GroupRef CommandGroup -> gmap GroupRef CommandGroup) (r : Registry) :=
  {| commands := commands r; groups := groups r; types := types r;
     cachedPaths := cachedPaths r; store := f (store r); allocated := allocated r;
     fired := fired r; logged := logged r |}.

(** Hands out the next object identity. *)
Definition allocate (r : Registry) : nat * Registry :=
  (allocated r,
   {| commands := commands r; groups := groups r; types := types r;
      cachedPaths := cachedPaths r; store := store r; allocated := S (allocated r);
      fired := fired r; logged := logged r |}).

(** [signal.Fire(x)]: the delivery is appended to the trace. *)
Definition Fire (e : Event) (r : Registry) : Registry :=
  {| commands := commands r; groups := groups r; types := types r;
     cachedPaths := cachedPaths r; store := store r; allocated := allocated r;
     fired := fired r ++ [e]; logged := logged r |}.

(** Modelled from the spec: the logging channel ([CenturionLogger] of
    [../util/log], not among the sources).  [debug], [warn] and [error]
    report a message and return; [assert] (see [Outcome] below) halts the
    calling code path when its condition is false. *)
Definition log (level : LogLevel) (msg : string) (r : Registry) : Registry :=
  {| commands := commands r; groups := groups r; types := types r;
     cachedPaths := cachedPaths r; store := store r; allocated := allocated r;
     fired := fired r; logged := logged r ++ [(level, msg)] |}.

(** The group object behind a reference. *)
Definition deref (r : Registry) (g : GroupRef) : CommandGroup :=
  default (CommandGroup.create [] {| go_name := ""; go_parent := None |}) (store r !! g).

(** ** Argument types *)

(** [registerType(...types)]. *)
Definition registerType (ts : list ArgumentType) (r : Registry) : Registry :=
  foldl (fun r options =>
           log Debug ("Registered type: " +:+ at_name options)
               (with_types (insert (at_name options) options) r))
        r ts.

(** [getType(name)]. *)
Definition getType (r : Registry) (name : string) : option ArgumentType :=
  types r !! name.

(** ** Outcomes of the calls that can halt *)

(** [logger.assert(cond, msg)] with a false condition halts the calling code
    path: the call ends in [Thrown] with the registry as it was at that
    moment.  [OutOfFuel] is the model running out of recursion budget. *)
Inductive Outcome (A : Type) :=
  | Returned (a : A) (r : Registry)
  | Thrown (msg : string) (r : Registry)
  | OutOfFuel.

Arguments Returned {A} a r.
Arguments Thrown {A} msg r.
Arguments OutOfFuel {A}.

Definition M (A : Type) : Type := Registry -> Outcome A.

Definition ret {A} (a : A) : M A := fun r => Returned a r.

Definition bind {A B} (m : M A) (k : A -> M B) : M B :=
  fun r =>
    match m r with
    | Returned a r' => k a r'
    | Thrown msg r' => Thrown msg r'
    | OutOfFuel => OutOfFuel
    end.

(** A call that cannot halt, run for its effect on the registry. *)
Definition effect (f : Registry -> Registry) : M unit := fun r => Returned tt (f r).

Notation "x <- m ;; k" := (bind m (fun x => k))
  (at level 100, m at next level, right associativity).
Notation "m ;;; k" := (bind m (fun _ => k))
  (at level 100, right associativity).

(** [for (const x of xs) body(x)]. *)
Fixpoint for_each {A} (xs : list A) (body : A -> M unit) : M unit :=
  match xs with
  | [] => ret tt
  | x :: xs' => body x ;;; for_each xs' body
  end.

(** ** The runtime's array sort *)

(** [array.sort(lt)] is the runtime's [table.sort] with a strict "comes
    before" callback.  All that is used of it is that the result is a
    rearrangement of the array in which no element comes before an earlier
    one, when the callback is a strict weak order. *)
Record SortSpec (sort : forall A : Type, (A -> A -> bool) -> list A -> list A) : Prop := {
  sort_permutation : forall A (lt : A -> A -> bool) (l : list A), sort A lt l ≡ₚ l;
  sort_sorted : forall A (lt : A -> A -> bool),
    Transitive (fun a b => lt b a = false) ->
    Total (fun a b => lt b a = false) ->
    forall l, StronglySorted (fun a b => lt b a = false) (sort A lt l);
}.

(** One such sort, used to run the registry on concrete inputs. *)
Definition table_sort (A : Type) (lt : A -> A -> bool) (l : list A) : list A :=
  @merge_sort A (fun a b => lt b a = false) (fun a b => decide (lt b a = false)) l.

(** ** The registry operations *)

Definition ROOT_KEY : string := "__root__".

Section BaseRegistry.

Import RegistryPath.

Variable array_sort : forall A : Type, (A -> A -> bool) -> list A -> list A.

(** The alias paths a new [ExecutableCommand] derives from its primary path
    and its options (the constructor is in [./command], not among the
    sources). *)
Variable alias_paths : RegistryPath -> CommandOptions -> list RegistryPath.

(** The callback of [cache.sort]: [a.tail() < b.tail()]. *)
Definition by_tail (a b : RegistryPath) : bool := String.ltb (tail a) (tail b).

(** The callback of [commandGroups.sort]: [a.getPath().size() < b.getPath().size()]. *)
Definition by_size (a b : CommandGroup) : bool := Nat.ltb (size (g_path a)) (size (g_path b)).

Fixpoint cachePath_loop (path : RegistryPath) (range : list nat) (key : string)
    (cache_map : gmap string (list RegistryPath)) : gmap string (list RegistryPath) :=
  match range with
  | [] => cache_map
  | i :: range' =>
    let pathSlice := slice path 0 i in
    let cache := default [] (cache_map !! key) in
    let cache_map := <[key := cache]> cache_map in
    let key' := toString pathSlice in
    if existsb (fun val => equals val pathSlice) cache
    then cachePath_loop path range' key' cache_map
    else cachePath_loop path range' key'
           (<[key := array_sort _ by_tail (cache ++ [pathSlice])]> cache_map)
  end.

(** [cachePath(path)]: [$range(0, path.size() - 1)] is [0], ..., [size - 1]. *)
Definition cachePath (path : RegistryPath) (cache_map : gmap string (list RegistryPath)) :=
  cachePath_loop path (seq 0 (size path)) ROOT_KEY cache_map.

Fixpoint uncachePath_loop (path : RegistryPath) (range : list nat) (key : string)
    (cache_map : gmap string (list RegistryPath)) : gmap string (list RegistryPath) :=
  match range with
  | [] => cache_map
  | i :: range' =>
    match cache_map !! key with
    | None => cache_map
    | Some cache =>
      let pathSlice := slice path 0 i in
      let newCache :=
        array_sort _ by_tail (List.filter (fun val => negb (equals val pathSlice)) cache) in
      uncachePath_loop path range' (toString pathSlice)
        (match newCache with
         | [] => delete key cache_map
         | _ :: _ => <[key := newCache]> cache_map
         end)
    end
  end.

(** [uncachePath(path)]. *)
Definition uncachePath (path : RegistryPath) (cache_map : gmap string (list RegistryPath)) :=
  uncachePath_loop path (seq 0 (size path)) ROOT_KEY cache_map.

(** [validatePath(path, isCommand)]: reports, and returns nothing. *)
Definition validatePath (path : RegistryPath) (isCommand : bool) (r : Registry) : Registry :=
  let pathString := toString path in
  if negb (forallb matches_word (iter path)) then
    log Error ("Invalid path for " +:+ (if isCommand then "command" else "group") +:+ ": "
               +:+ pathString
               +:+ ". Command/group names can only contain alphanumeric characters and underscores.") r
  else
    let commandRegistered := bool_decide (is_Some (commands r !! pathString)) in
    if commandRegistered && isCommand then
      log Error ("Duplicate command: " +:+ pathString) r
    else if commandRegistered then
      log Error ("A command already exists with the same name as this group: " +:+ pathString) r
    else
      let groupRegistered := bool_decide (is_Some (groups r !! pathString)) in
      if groupRegistered && isCommand then
        log Error ("A group already exists with the same name as this command: " +:+ pathString) r
      else if groupRegistered then
        log Error ("Duplicate group: " +:+ pathString) r
      else r.

(** [addCommand(command, group?)]. *)
Definition addCommand (command : BaseCommand) (group : option GroupRef) (r : Registry) : Registry :=
  let r :=
    foldl (fun r path =>
             let r := validatePath path true r in
             let r := with_commands (insert (toString path) command) r in
             with_cachedPaths (cachePath path) r)
          r (getPaths command) in
  let r :=
    match group with
    | Some g => with_store (<[g := CommandGroup.addCommand command (deref r g)]>) r
    | None => r
    end in
  let r := Fire (commandRegistered command) r in
  log Debug ("Registered command: " +:+ toString (getPath command)) r.

(** [createCommand(options, callback, group?, guards, metadata?)]. *)
Definition createCommand (options : CommandOptions) (group : option RegistryPath) : M BaseCommand :=
  fun r =>
    let commandPath :=
      match group with
      | Some g => append g (lower (co_name options))
      | None => [lower (co_name options)]
      end in
    let make (r : Registry) :=
      let '(id, r) := allocate r in
      Returned {| c_id := id; c_path := commandPath;
                  c_aliases := alias_paths commandPath options;
                  c_options := options |} r in
    match group with
    | Some g =>
      match groups r !! toString g with
      | None =>
        Thrown ("Cannot assign group '" +:+ toString g +:+ "' to command '"
                +:+ toString commandPath +:+ "' as it is not registered") r
      | Some _ => make r
      end
    | None => make r
    end.

(** [registerCommand(options, callback, group?, guards?)]. *)
Definition registerCommand (options : CommandOptions) (group : option (list string)) : M unit :=
  command <- createCommand options group ;;
  effect (addCommand command None).

(** The group object built for one definition of the batch. *)
Definition new_group (group : GroupOptions) : CommandGroup :=
  let pathParts :=
    match go_parent group with
    | Some parent => map lower parent
    | None => []
    end in
  CommandGroup.create (pathParts ++ [lower (go_name group)]) group.

(** The second loop of [registerGroup], over the sorted array.  A group
    object gets its place in the store when the loop first shares it. *)
Fixpoint registerGroup_loop (commandGroups : list CommandGroup) (r : Registry) : Registry :=
  match commandGroups with
  | [] => r
  | group :: rest =>
    let path := g_path group in
    let r := validatePath path false r in
    let pathString := toString path in
    let '(ref, r) := allocate r in
    let r := with_store (<[ref := group]>) r in
    let register (r : Registry) :=
      let r := with_groups (<[pathString := ref]>) r in
      let r := with_cachedPaths (cachePath path) r in
      let r := Fire (groupRegistered path) r in
      registerGroup_loop rest (log Debug ("Registered group: " +:+ pathString) r) in
    if Nat.ltb 1 (size path) then
      let parentPath := parent path in
      match groups r !! toString parentPath with
      | None =>
        log Error ("Parent group '" +:+ toString parentPath +:+ "' for group '"
                   +:+ pathString +:+ "' is not registered") r
      | Some parentGroup =>
        if CommandGroup.hasGroup (deref r parentGroup) (go_name (g_options group)) then
          registerGroup_loop rest
            (log Warn ("Skipping duplicate child group in " +:+ toString parentPath +:+ ": "
                       +:+ go_name (g_options group)) r)
        else
          register
            (with_store
               (<[parentGroup :=
                    CommandGroup.addGroup (go_name (g_options group)) ref (deref r parentGroup)]>) r)
      end
    else register r
  end.

(** [registerGroup(...groups)]. *)
Definition registerGroup (groups : list GroupOptions) (r : Registry) : Registry :=
  let commandGroups := map new_group groups in
  registerGroup_loop (array_sort _ by_size commandGroups) r.

(** [getCommand(path)] and [getGroup(path)]. *)
Definition getCommand (r : Registry) (path : RegistryPath) : option BaseCommand :=
  commands r !! toString path.

Definition getGroup (r : Registry) (path : RegistryPath) : option GroupRef :=
  groups r !! toString path.

(** [unregisterCommand(path)]. *)
Definition unregisterCommand (path : RegistryPath) : M unit :=
  fun r =>
    match getCommand r path with
    | None => Thrown ("Command is not registered: " +:+ toString path) r
    | Some command =>
      let r :=
        match getGroup r (parent path) with
        | Some group => with_store (<[group := CommandGroup.removeCommand command (deref r group)]>) r
        | None => r
        end in
      let r :=
        foldl (fun r path =>
                 let r := with_commands (delete (toString path)) r in
                 with_cachedPaths (uncachePath path) r)
              r (getPaths command) in
      let r := Fire (commandUnregistered command) r in
      Returned tt (log Debug ("Unregistered command: " +:+ toString (getPath command)) r)
    end.

(** [unregisterGroup(path)].  The recursion follows the child tables of the
    group objects; [fuel] bounds its depth. *)
Fixpoint unregisterGroup (fuel : nat) (path : RegistryPath) : M unit :=
  fun r =>
    match fuel with
    | 0 => OutOfFuel
    | S fuel =>
      match getGroup r path with
      | None => Thrown ("Group is not registered: " +:+ toString path) r
      | Some group =>
        let r :=
          match getGroup r (parent path) with
          | Some parentGroup =>
            with_store
              (<[parentGroup :=
                   CommandGroup.removeGroup (go_name (g_options (deref r group)))
                     (deref r parentGroup)]>) r
          | None => r
          end in
        (for_each (CommandGroup.getCommands (deref r group))
           (fun command => unregisterCommand (getPath command)) ;;;
         (fun r =>
            for_each (CommandGroup.getGroups (deref r group))
              (fun childGroup r => unregisterGroup fuel (g_path (deref r childGroup)) r) r) ;;;
         effect (fun r =>
           let r := with_groups (delete (toString path)) r in
           let r := with_cachedPaths (uncachePath path) r in
           let r := Fire (groupUnregistered (g_path (deref r group))) r in
           log Debug ("Unregistered group: " +:+ toString (g_path (deref r group))) r)) r
      end
    end.

(** [getRootPaths()] and [getChildPaths(path)]. *)
Definition getRootPaths (r : Registry) : list RegistryPath :=
  default [] (cachedPaths r !! ROOT_KEY).

Definition getChildPaths (r : Registry) (path : RegistryPath) : list RegistryPath :=
  default [] (cachedPaths r !! lower (toString path)).

(** ** Sequences of calls *)

Inductive Call :=
  | RegisterType (ts : list ArgumentType)
  | RegisterGroup (gs : list GroupOptions)
  | RegisterCommand (options : CommandOptions) (group : option (list string))
  | AddCommand (command : BaseCommand) (group : option GroupRef)
  | UnregisterCommand (path : RegistryPath)
  | UnregisterGroup (path : RegistryPath).

Definition call (fuel : nat) (c : Call) : M unit :=
  match c with
  | RegisterType ts => effect (registerType ts)
  | RegisterGroup gs => effect (registerGroup gs)
  | RegisterCommand options group => registerCommand options group
  | AddCommand command group => effect (addCommand command group)
  | UnregisterCommand path => unregisterCommand path
  | UnregisterGroup path => unregisterGroup fuel path
  end.

(** The calls of a program, in order; a halted call halts the program. *)
Definition calls (fuel : nat) (cs : list Call) : M unit :=
  for_each cs (call fuel).

End BaseRegistry.

(** ** The rest of the registry: accessors, class registration, loading *)

(** [getCommandByString(path)] and [getGroupByString(path)]. *)
Definition getCommandByString (r : Registry) (path : string) : option BaseCommand :=
  commands r !! path.

Definition getGroupByString (r : Registry) (path : string) : option GroupRef :=
  groups r !! path.

(** [getCommands()], [getGroups()] and [getTypes()] collect the values of
    a table, one per key; the order is the one the runtime walks the table
    in. *)
Definition getCommands (r : Registry) : list BaseCommand :=
  map snd (map_to_list (commands r)).

Definition getGroups (r : Registry) : list GroupRef :=
  map snd (map_to_list (groups r)).

Definition getTypes (r : Registry) : list ArgumentType :=
  map snd (map_to_list (types r)).

(** What the decorators have recorded about a command class
    ([DecoratorMetadata] of [./metadata], not among the sources), as
    [registerCommandClass] reads it: the [Register] options, the class-level
    [Group], and per decorated property the [Command] options and the
    property-level [Group].  Guards play no part in registration. *)
Record RegisterOptions := {
  ro_groups : option (list GroupOptions);
}.

Record CommandProperty := {
  cp_name : string;
  cp_command : option CommandOptions;
  cp_group : option (list string);
}.

Record CommandClass := {
  cc_name : string;
  cc_register : option RegisterOptions;
  cc_group : option (list string);
  cc_properties : list CommandProperty;
}.

(** What [loadModule] gives for a module script: it fails with a message,
    or returns a value, which is a function taking the registry or
    anything else. *)
Inductive ModuleValue :=
  | ModuleFunction (f : Registry -> Outcome unit)
  | ModuleOther.

Record Instance := {
  IsAModuleScript : bool;
  GetFullName : string;
  loadModule : string + ModuleValue;
}.

Record Container := {
  GetChildren : list Instance;
  GetDescendants : list Instance;
}.

Section BaseRegistryLoading.

Variable array_sort : forall A : Type, (A -> A -> bool) -> list A -> list A.
Variable alias_paths : RegistryPath -> CommandOptions -> list RegistryPath.

(** [config.construct], the function of the configuration that builds the
    instance of a command class ([SharedConfig] of [../types], not among
    the sources).  It is code of the caller: it may halt, and it may reach
    the registry.  The instance it returns goes into the callback and the
    metadata of each command, neither of which registration reads. *)
Variable construct : CommandClass -> M unit.

(** The group path [registerCommandClass] builds for one property. *)
Definition groupParts (commandClass : CommandClass) (property : CommandProperty) : list string :=
  let classGroups := default [] (cc_group commandClass) in
  map lower classGroups ++
  match cp_group property with
  | Some (part :: group) => map lower (part :: group)
  | Some [] | None => []
  end.

(** [registerCommandClass(commandClass)]: the assertion on the [Register]
    metadata, the groups of the options, the instance of the class built by
    [config.construct], then one command per decorated property. *)
Definition registerCommandClass (commandClass : CommandClass) : M unit :=
  fun r =>
    match cc_register commandClass with
    | None => Thrown ("Metadata not found for @Register: " +:+ cc_name commandClass) r
    | Some registerOptions =>
      ((match ro_groups registerOptions with
        | Some groups => effect (registerGroup array_sort groups)
        | None => ret tt
        end) ;;;
       construct commandClass ;;;
       for_each (cc_properties commandClass)
         (fun property =>
            match cp_command property with
            | None =>
              Thrown ("Metadata not found for @Command: " +:+ cc_name commandClass
                      +:+ "/" +:+ cp_name property)
            | Some options =>
              command <- createCommand alias_paths options
                           (match groupParts commandClass property with
                            | [] => None
                            | part :: parts => Some (part :: parts)
                            end) ;;
              effect (addCommand array_sort command None)
            end)) r
    end.

(** [load(container, descendants = false)]. *)
Definition load (container : Container) (descendants : bool) : M unit :=
  let instances := if descendants then GetDescendants container else GetChildren container in
  for_each instances
    (fun obj =>
       if negb (IsAModuleScript obj) then ret tt
       else
         match loadModule obj with
         | inl value =>
           effect (log Warn ("Failed to load module " +:+ GetFullName obj +:+ ": " +:+ value))
         | inr (ModuleFunction value) =>
           effect (log Debug ("Loaded module " +:+ GetFullName obj
                              +:+ ", calling returned function...")) ;;;
           value
         | inr ModuleOther =>
           effect (log Debug ("Loaded module " +:+ GetFullName obj))
         end).

(** [init()]: [registerBuiltInTypes] is the configuration flag and
    [builtInTypes] the container found under [builtin/types], if any. *)
Definition init (registerBuiltInTypes : bool) (builtInTypes : option Container) : M unit :=
  if registerBuiltInTypes then
    match builtInTypes with
    | None => fun r => Thrown "Failed to locate built-in types" r
    | Some container => load container false
    end
  else ret tt.

End BaseRegistryLoading.

(** An object the decorators have recorded metadata for, as [register]
    reads it from [DecoratorMetadata.metadata]: the identity of the object;
    its class metadata (it has [Register] metadata when [cc_register] is
    there); whether it has [Type] metadata; and the object seen as an
    argument type, when [isArgumentType] accepts it. *)
Record MetadataObject := {
  mo_id : nat;
  mo_class : CommandClass;
  mo_hasType : bool;
  mo_argumentType : option ArgumentType;
}.

Section BaseRegistryRegister.

Variable array_sort : forall A : Type, (A -> A -> bool) -> list A -> list A.
Variable alias_paths : RegistryPath -> CommandOptions -> list RegistryPath.
Variable construct : CommandClass -> M unit.

(** The first loop of [register()], over the recorded objects:
    [registeredObjects] is the set of the objects registered so far and
    [constructors] the classes found. *)
Fixpoint register_scan (metadata : list MetadataObject) (registeredObjects : gset nat)
    (constructors : list MetadataObject) (r : Registry)
    : list MetadataObject * gset nat * Registry :=
  match metadata with
  | [] => (constructors, registeredObjects, r)
  | obj :: rest =>
    if decide (mo_id obj ∈ registeredObjects) then
      register_scan rest registeredObjects constructors r
    else
      match cc_register (mo_class obj) with
      | Some _ => register_scan rest registeredObjects (constructors ++ [obj]) r
      | None =>
        match mo_hasType obj, mo_argumentType obj with
        | true, Some type =>
          register_scan rest ({[mo_id obj]} ∪ registeredObjects) constructors
            (registerType [type] r)
        | _, _ => register_scan rest registeredObjects constructors r
        end
      end
  end.

(** The second loop of [register()], over the classes found. *)
Fixpoint register_classes (constructors : list MetadataObject) (registeredObjects : gset nat)
    (r : Registry) : Outcome (gset nat) :=
  match constructors with
  | [] => Returned registeredObjects r
  | ctor :: rest =>
    match registerCommandClass array_sort alias_paths construct (mo_class ctor) r with
    | Returned _ r' => register_classes rest ({[mo_id ctor]} ∪ registeredObjects) r'
    | Thrown msg r' => Thrown msg r'
    | OutOfFuel => OutOfFuel
    end
  end.

(** [register()]: the set [registeredObjects] is passed in and handed
    back. *)
Definition register (metadata : list MetadataObject) (registeredObjects : gset nat)
    (r : Registry) : Outcome (gset nat) :=
  let '(constructors, registeredObjects, r) := register_scan metadata registeredObjects [] r in
  register_classes constructors registeredObjects r.

End BaseRegistryRegister.

(** ** The server dispatcher *)

Module ServerDispatcher.

(** The executor of an invocation: a player, known by its [Name]. *)
Record Player := { Name : string }.

(** Modelled from the spec: the interaction object ([CommandInteraction] of
    [../shared], not among the sources), the structured result of one
    dispatch: executor, raw text, success flag, reply text and reply time.
    A new interaction has no reply yet; [error] records a failure reply. *)
Record CommandInteraction := {
  executor : Player;
  text : string;
  replySuccess : option bool;
  replyText : option string;
  replyTime : option nat;
}.

Definition new_interaction (executor : Player) (text : string) : CommandInteraction :=
  {| executor := executor; text := text;
     replySuccess := None; replyText := None; replyTime := None |}.

Definition error (now : nat) (msg : string) (i : CommandInteraction) : CommandInteraction :=
  {| executor := executor i; text := text i;
     replySuccess := Some false; replyText := Some msg; replyTime := Some now |}.

(** A settled promise. *)
Inductive Promise (A : Type) :=
  | Resolved (a : A)
  | Rejected (err : string).

Arguments Resolved {A} a.
Arguments Rejected {A} err.

(** What [warn] has printed so far. *)
Definition Console : Type := list string.

Section Dispatcher.

(** [executeCommand] is inherited from [BaseDispatcher] ([../shared/core/dispatcher],
    not among the sources): the whole pipeline up to the command body.  It
    settles to an interaction or rejects with a fault, and may print. *)
Variable executeCommand :
  RegistryPath -> Player -> string -> Console -> Promise CommandInteraction * Console.

(** The clock read by the interaction when a reply is recorded. *)
Variable now : nat.

(** [handleError(executor, text, err)]. *)
Definition handleError (executor : Player) (text : string) (err : string) (out : Console) : Console :=
  out ++ [Name executor +:+ " tried to run '" +:+ text +:+ "' but an error occurred: " +:+ err].

(** [run(path, executor, text = "")]. *)
Definition run (path : RegistryPath) (executor : Player) (text : option string) (out : Console)
    : Promise CommandInteraction * Console :=
  let text := default "" text in
  match executeCommand path executor text out with
  | (Resolved interaction, out) => (Resolved interaction, out)
  | (Rejected err, out) =>
    let out := handleError executor text err out in
    let interaction := new_interaction executor text in
    (Resolved (error now "An error occurred." interaction), out)
  end.

(** [CommandPath.fromString] ([../shared], not among the sources) parses
    the path text of a request. *)
Variable fromString : string -> RegistryPath.

(** Modelled from the spec: the data of an interaction
    ([CommandInteractionData] and [getData] of [../shared], not among the
    sources), the record handed back to the transport: executor, text,
    success flag, reply text and reply time, as the interaction holds
    them. *)
Definition getData (interaction : CommandInteraction) : CommandInteraction := interaction.

(** The request handler installed by [init()]:
    [remotes.executeCommand.onRequest(async (player, path, text) => ...)]. *)
Definition onRequest (player : Player) (path : string) (text : string) (out : Console)
    : CommandInteraction * Console :=
  let commandPath := fromString path in
  match run commandPath player (Some text) out with
  | (Resolved interaction, out) => (getData interaction, out)
  | (Rejected err, out) =>
    let out := handleError player text err out in
    ({| executor := player; text := text; replySuccess := Some false;
        replyText := Some "An error occurred."; replyTime := Some now |}, out)
  end.

End Dispatcher.

End ServerDispatcher.

(** ** Running the registry on concrete inputs *)

(** Commands without aliases own their primary path only. *)
Definition no_aliases (_ : RegistryPath) (_ : CommandOptions) : list RegistryPath := [].

(** A [config.construct] that builds the instance and does nothing else. *)
Definition plain_construct (_ : CommandClass) : M unit := ret tt.

(** A program of calls on the empty registry. *)
Definition program (cs : list Call) : Outcome unit :=
  calls table_sort no_aliases 16 cs empty_registry.

Definition group_def (name : string) (parent : option (list string)) : GroupOptions :=
  {| go_name := name; go_parent := parent |}.

Definition command_def (name : string) : CommandOptions :=
  {| co_name := name; co_aliases := [] |}.

(** Groups [a], [a/b], [a/b/c] and [a/b/d], one call each. *)
Definition nested_groups : list Call :=
  [RegisterGroup [group_def "a" None];
   RegisterGroup [group_def "b" (Some ["a"])];
   RegisterGroup [group_def "c" (Some ["a"; "b"])];
   RegisterGroup [group_def "d" (Some ["a"; "b"])]].

(** Group [a] and its child groups [a/b] and [a/c], one call each. *)
Definition sibling_groups : list Call :=
  [RegisterGroup [group_def "a" None];
   RegisterGroup [group_def "b" (Some ["a"])];
   RegisterGroup [group_def "c" (Some ["a"])]].

(** Group [a] and the commands [a/x] and [a/y] registered under it. *)
Definition sibling_commands : list Call :=
  [RegisterGroup [group_def "a" None];
   RegisterCommand (command_def "x") (Some ["a"]);
   RegisterCommand (command_def "y") (Some ["a"])].

(** The registry an outcome leaves behind (the empty one when the model ran
    out of fuel). *)
Definition registry_after {A} (o : Outcome A) : Registry :=
  match o with
  | Returned _ r | Thrown _ r => r
  | OutOfFuel => empty_registry
  end.

(** ** The statements of the specification, in its words *)

(** The descriptor supplied by the most recent [registerType] call, in a
    sequence of calls, whose descriptor is named [name]. *)
Definition most_recent_named (name : string) (batches : list (list ArgumentType))
    : option ArgumentType :=
  last (List.filter (fun t => String.eqb (at_name t) name) (concat batches)).

(** The paths currently registered: every path under which a command sits
    in [commands], and the path of every group in [groups]. *)
Definition registered_paths (r : Registry) : list RegistryPath :=
  flat_map (fun e => List.filter (fun p => String.eqb (RegistryPath.toString p) (fst e))
                                 (getPaths (snd e)))
           (map_to_list (commands r))
  ++ map (fun e => g_path (deref r (snd e))) (map_to_list (groups r)).

(** The child-path index obtained by re-walking [commands] and [groups]:
    every registered path is cached afresh. *)
Definition rebuilt_cache (sort : forall A : Type, (A -> A -> bool) -> list A -> list A)
    (r : Registry) : gmap string (list RegistryPath) :=
  foldl (fun cache_map p => cachePath sort p cache_map) ∅ (registered_paths r).

(** A path is listed among the children cached under a key. *)
Definition cached_under (r : Registry) (key : string) (p : RegistryPath) : bool :=
  existsb (fun val => RegistryPath.equals val p) (default [] (cachedPaths r !! key)).

(** The key under which [cachePath] lists a path: the root key for a path
    of one segment, the canonical string of its parent otherwise. *)
Definition parent_key (p : RegistryPath) : string :=
  match RegistryPath.parent p with
  | [] => ROOT_KEY
  | _ :: _ => RegistryPath.toString (RegistryPath.parent p)
  end.

(** The key in use after the cache walk has gone through [range]. *)
Definition key_after (path : RegistryPath) (range : list nat) (key : string) : string :=
  match last range with
  | Some i => RegistryPath.toString (RegistryPath.slice path 0 i)
  | None => key
  end.

(** A well-formed cache entry: the list under a key is not empty, holds no
    two paths with the same canonical string, is in the order of the last
    segments, and each of its paths is filed under the key of its parent. *)
Definition cache_entry_ok (key : string) (l : list RegistryPath) : Prop :=
  l <> []
  /\ NoDup (map RegistryPath.toString l)
  /\ StronglySorted (fun a b => by_tail b a = false) l
  /\ Forall (fun val => val <> [] /\ parent_key val = key) l.

Definition cache_ok (cache_map : gmap string (list RegistryPath)) : Prop :=
  forall k l, cache_map !! k = Some l -> cache_entry_ok k l.

(** A property of the registry that a call keeps, whether it returns or
    halts. *)
Definition preserves {A} (P : Registry -> Prop) (m : M A) : Prop :=
  forall r, P r ->
    match m r with
    | Returned _ r' | Thrown _ r' => P r'
    | OutOfFuel => True
    end.

(** Every key of [groups] is in lower case. *)
Definition lowercase_group_keys (r : Registry) : Prop :=
  forall k ref, groups r !! k = Some ref -> lower k = k.

(** The deliveries of the two "unregistered" signals. *)
Definition is_unregistered (e : Event) : bool :=
  match e with
  | commandUnregistered _ | groupUnregistered _ => true
  | commandRegistered _ | groupRegistered _ => false
  end.

(** The path of every group object is what [paths] says. *)
Definition group_paths_are (paths : GroupRef -> RegistryPath) (r : Registry) : Prop :=
  forall ref, g_path (deref r ref) = paths ref.

(** From one registry to a later one, only "unregistered" deliveries were
    fired. *)
Definition only_unregistered_fired (r r' : Registry) : Prop :=
  exists events, fired r' = fired r ++ events /\ forallb is_unregistered events = true.


(** The number of separators in the canonical string of a path. *)
Fixpoint separators (s : string) : nat :=
  match s with
  | EmptyString => 0
  | String c s' => (if Ascii.eqb c "/" then 1 else 0) + separators s'
  end.

(** * Properties *)

(** ** Argument types: the last write wins *)

Lemma types_registerType (ts : list ArgumentType) (r : Registry) :
  types (registerType ts r) = foldl (fun m t => <[at_name t := t]> m) (types r) ts.
Proof.
  unfold registerType. revert r.
  induction ts as [|t ts IH]; intros r; [reflexivity|].
  cbn [foldl]. rewrite IH. reflexivity.
Qed.

Lemma lookup_foldl_insert (ts : list ArgumentType) (m : gmap string ArgumentType) (name : string) :
  foldl (fun m t => <[at_name t := t]> m) m ts !! name =
  match last (List.filter (fun t => String.eqb (at_name t) name) ts) with
  | Some t => Some t
  | None => m !! name
  end.
Proof.
  induction ts as [|t ts IH] using rev_ind; [reflexivity|].
  rewrite foldl_app, List.filter_app. cbn [foldl List.filter].
  destruct (String.eqb_spec (at_name t) name) as [->|Hne].
  - rewrite last_snoc. apply lookup_insert_eq.
  - rewrite app_nil_r, lookup_insert_ne by exact Hne. exact IH.
Qed.

Lemma types_registerType_batches (batches : list (list ArgumentType)) (r : Registry) :
  types (foldl (fun r ts => registerType ts r) r batches) =
  foldl (fun m t => <[at_name t := t]> m) (types r) (concat batches).
Proof.
  revert r. induction batches as [|ts batches IH]; intros r; [reflexivity|].
  cbn [foldl concat]. rewrite IH, types_registerType, foldl_app. reflexivity.
Qed.

(** C8. [registerType] is last-write-wins per type name: after any sequence
    of [registerType] calls on a registry, [getType n] is the descriptor of
    the most recent call whose descriptor is named [n], and what the
    registry held before when there is no such call (nothing, on a fresh
    registry). *)
Theorem registerType_last_write_wins (batches : list (list ArgumentType)) (r : Registry)
    (n : string) :
  getType (foldl (fun r ts => registerType ts r) r batches) n =
    match most_recent_named n batches with
    | Some t => Some t
    | None => getType r n
    end
  /\ getType (foldl (fun r ts => registerType ts r) empty_registry batches) n =
       most_recent_named n batches.
Proof.
  assert (H : forall r0, getType (foldl (fun r ts => registerType ts r) r0 batches) n =
                match most_recent_named n batches with
                | Some t => Some t
                | None => getType r0 n
                end).
  { intros r0. unfold getType, most_recent_named.
    rewrite types_registerType_batches. apply lookup_foldl_insert. }
  split; [apply H|].
  rewrite H. unfold getType. cbn [types empty_registry].
  rewrite lookup_empty. destruct (most_recent_named n batches); reflexivity.
Qed.

(** ** The dispatcher boundary *)

(** C5. [run] never hands a fault to its caller: it always settles to
    exactly one interaction; when the pipeline rejects with a fault, that
    interaction is a failure whose reply is the fixed text
    ["An error occurred."], whatever the fault says, and the fault is
    printed on the logging channel. *)
Theorem run_never_rejects
    (executeCommand : RegistryPath -> ServerDispatcher.Player -> string ->
                      ServerDispatcher.Console ->
                      ServerDispatcher.Promise ServerDispatcher.CommandInteraction *
                      ServerDispatcher.Console)
    (now : nat) (path : RegistryPath) (executor : ServerDispatcher.Player)
    (text : option string) (out : ServerDispatcher.Console) :
  (exists interaction out',
      ServerDispatcher.run executeCommand now path executor text out =
        (ServerDispatcher.Resolved interaction, out'))
  /\ (forall err out1,
        executeCommand path executor (default "" text) out = (ServerDispatcher.Rejected err, out1) ->
        exists interaction,
          ServerDispatcher.run executeCommand now path executor text out =
            (ServerDispatcher.Resolved interaction,
             out1 ++ [ServerDispatcher.Name executor +:+ " tried to run '" +:+ default "" text
                      +:+ "' but an error occurred: " +:+ err])
          /\ ServerDispatcher.replySuccess interaction = Some false
          /\ ServerDispatcher.replyText interaction = Some "An error occurred."
          /\ ServerDispatcher.executor interaction = executor
          /\ ServerDispatcher.text interaction = default "" text)
  /\ (forall interaction out1,
        executeCommand path executor (default "" text) out = (ServerDispatcher.Resolved interaction, out1) ->
        ServerDispatcher.run executeCommand now path executor text out =
          (ServerDispatcher.Resolved interaction, out1)).
Proof.
  unfold ServerDispatcher.run, ServerDispatcher.handleError.
  destruct (executeCommand path executor (default "" text) out) as [[interaction|err] out1] eqn:E.
  - split; [eauto|]. split; [intros ? ? [=]|]. intros ? ? [= <- <-]. reflexivity.
  - split; [eauto|]. split; [|intros ? ? [=]].
    intros ? ? [= <- <-]. eexists. split; [reflexivity|]. cbn. auto.
Qed.

(** A pipeline whose command body always faults with the fault text given as
    the invocation text. *)
Lemma run_never_rejects_witness :
  let executeCommand :=
    fun (_ : RegistryPath) (_ : ServerDispatcher.Player) (t : string)
        (out : ServerDispatcher.Console) =>
      (@ServerDispatcher.Rejected ServerDispatcher.CommandInteraction ("boom: " +:+ t), out) in
  let player := {| ServerDispatcher.Name := "ann" |} in
  executeCommand ["kick"] player "bob" [] = (ServerDispatcher.Rejected "boom: bob", [])
  /\ exists interaction,
       ServerDispatcher.run executeCommand 7 ["kick"] player (Some "bob") [] =
         (ServerDispatcher.Resolved interaction,
          ["ann tried to run 'bob' but an error occurred: boom: bob"])
       /\ ServerDispatcher.replySuccess interaction = Some false
       /\ ServerDispatcher.replyText interaction = Some "An error occurred.".
Proof.
  intros executeCommand player. split; [reflexivity|].
  destruct (run_never_rejects executeCommand 7 ["kick"] player (Some "bob") [])
    as (_ & H & _).
  destruct (H "boom: bob" [] eq_refl) as (i & Hrun & Hs & Ht & _).
  exists i. split; [exact Hrun|]. split; assumption.
Defined.

(** ** The batch of [registerGroup] is walked by depth *)

Lemma table_sort_spec : SortSpec table_sort.
Proof.
  split.
  - intros A lt l. unfold table_sort. apply merge_sort_Permutation.
  - intros A lt Htrans Htotal l. unfold table_sort.
    apply (StronglySorted_merge_sort _); assumption.
Qed.

Lemma StronglySorted_lookup {A} (R : A -> A -> Prop) (l : list A) (i j : nat) (a b : A) :
  StronglySorted R l -> l !! i = Some a -> l !! j = Some b -> i < j -> R a b.
Proof.
  intros Hs. revert i j.
  induction Hs as [|x l Hs IH Hall]; intros i j Hi Hj Hlt; [discriminate|].
  destruct j as [|j]; [lia|].
  destruct i as [|i].
  - injection Hi as <-. cbn in Hj.
    rewrite Forall_forall in Hall. apply Hall.
    eapply list_elem_of_lookup_2; eassumption.
  - cbn in Hi, Hj. eapply IH; [eassumption..|lia].
Qed.

Lemma by_size_false (a b : CommandGroup) :
  by_size b a = false <-> RegistryPath.size (g_path a) <= RegistryPath.size (g_path b).
Proof.
  unfold by_size. rewrite Nat.ltb_ge. reflexivity.
Qed.

Lemma by_size_transitive : Transitive (fun a b => by_size b a = false).
Proof.
  intros a b c. rewrite !by_size_false. lia.
Qed.

Lemma by_size_total : Total (fun a b => by_size b a = false).
Proof.
  intros a b. rewrite !by_size_false. lia.
Qed.

Lemma size_parent (p : RegistryPath) :
  p <> [] -> RegistryPath.size (RegistryPath.parent p) < RegistryPath.size p.
Proof.
  intros Hp. unfold RegistryPath.size, RegistryPath.parent.
  destruct (exists_last Hp) as (q & x & ->).
  rewrite removelast_last, length_app. cbn. lia.
Qed.

(** End to end: the child [a/b] is defined before its parent [a] in the
    batch, and both get registered, the parent first. *)
Example registerGroup_child_given_first :
  exists r,
    program [RegisterGroup [group_def "b" (Some ["a"]); group_def "a" None]] = Returned tt r
    /\ is_Some (getGroup r ["a"]) /\ is_Some (getGroup r ["a"; "b"])
    /\ fired r = [groupRegistered ["a"]; groupRegistered ["a"; "b"]]
    /\ logged r = [(Debug, "Registered group: a"); (Debug, "Registered group: a/b")].
Proof.
  eexists. split; [vm_compute; reflexivity|].
  repeat split; try (vm_compute; reflexivity); vm_compute; eexists; reflexivity.
Qed.

(** ** Letter case and the cache keys *)

Lemma lower_ascii_idemp (c : ascii) : lower_ascii (lower_ascii c) = lower_ascii c.
Proof.
  destruct c as [[] [] [] [] [] [] [] []]; reflexivity.
Qed.

Lemma lower_idemp (s : string) : lower (lower s) = lower s.
Proof.
  induction s as [|c s IH]; [reflexivity|].
  cbn. rewrite lower_ascii_idemp, IH. reflexivity.
Qed.

Lemma lower_append (a b : string) : lower (a +:+ b) = lower a +:+ lower b.
Proof.
  induction a as [|c a IH]; [reflexivity|].
  change (String (lower_ascii c) (lower (a +:+ b)) =
          String (lower_ascii c) (lower a +:+ lower b)).
  rewrite IH. reflexivity.
Qed.

Lemma lower_toString (p : RegistryPath) :
  lower (RegistryPath.toString p) = RegistryPath.toString (map lower p).
Proof.
  unfold RegistryPath.toString.
  induction p as [|x p IH]; [reflexivity|].
  destruct p as [|y p]; [reflexivity|].
  change (lower (x +:+ "/" +:+ String.concat "/" (y :: p)) =
          lower x +:+ "/" +:+ String.concat "/" (map lower (y :: p))).
  rewrite !lower_append, IH. reflexivity.
Qed.


Lemma new_group_lowercase (g : GroupOptions) :
  map lower (g_path (new_group g)) = g_path (new_group g).
Proof.
  unfold new_group. cbn. rewrite map_app. cbn. rewrite lower_idemp. f_equal.
  destruct (go_parent g) as [parent|]; [|reflexivity].
  rewrite map_map. apply map_ext. intros s. apply lower_idemp.
Qed.


Section CacheKeys.

Variable array_sort : forall A : Type, (A -> A -> bool) -> list A -> list A.



Lemma validatePath_cases (path : RegistryPath) (isCommand : bool) (r : Registry) :
  validatePath path isCommand r = r
  \/ exists msg, validatePath path isCommand r = log Error msg r.
Proof.
  unfold validatePath.
  repeat match goal with |- context [if ?b then _ else _] => destruct b end; eauto.
Qed.

Lemma cachedPaths_validatePath (path : RegistryPath) (isCommand : bool) (r : Registry) :
  cachedPaths (validatePath path isCommand r) = cachedPaths r.
Proof.
  unfold validatePath.
  repeat match goal with |- context [if ?b then _ else _] => destruct b end; reflexivity.
Qed.



End CacheKeys.




(** ** A missing parent ends the batch *)

(** C2. With groups [a] and [a/b] registered, the batch of [nope/x] (whose
    parent [nope] is not registered) and [a/b/c] (whose parent is) is
    walked in that order, by depth; the error for [nope/x] is reported and
    the loop returns: [a/b/c] is never reached and stays unregistered. *)
Theorem registerGroup_missing_parent_ends_batch :
  exists r,
    program [RegisterGroup [group_def "a" None];
             RegisterGroup [group_def "b" (Some ["a"])];
             RegisterGroup [group_def "x" (Some ["nope"]);
                            group_def "c" (Some ["a"; "b"])]] = Returned tt r
    /\ table_sort _ by_size (map new_group [group_def "x" (Some ["nope"]);
                                            group_def "c" (Some ["a"; "b"])])
       = [new_group (group_def "x" (Some ["nope"]));
          new_group (group_def "c" (Some ["a"; "b"]))]
    /\ is_Some (getGroup r ["a"; "b"])
    /\ last (logged r) = Some (Error, "Parent group 'nope' for group 'nope/x' is not registered")
    /\ getGroup r ["nope"; "x"] = None
    /\ getGroup r ["a"; "b"; "c"] = None
    /\ getChildPaths r ["a"; "b"] = []
    /\ fired r = [groupRegistered ["a"]; groupRegistered ["a"; "b"]].
Proof.
  eexists. split; [vm_compute; reflexivity|].
  repeat split; try (vm_compute; reflexivity).
  vm_compute. eexists. reflexivity.
Qed.

(** ** A reported collision is registered all the same *)

(** C3. [validatePath] reports a command registered at the path of a group,
    and a group registered at the path of a command, and returns nothing;
    its callers go on: the second registration is written into [commands]
    (or [groups]) and both entities end up registered at the path. *)
Theorem colliding_registration_not_rejected :
  (exists r0 r,
     program [RegisterGroup [group_def "a" None]] = Returned tt r0
     /\ program [RegisterGroup [group_def "a" None];
                 RegisterCommand (command_def "a") None] = Returned tt r
     /\ is_Some (getGroup r0 ["a"]) /\ getCommand r0 ["a"] = None
     /\ nth_error (logged r) 1
        = Some (Error, "A group already exists with the same name as this command: a")
     /\ is_Some (getGroup r ["a"])
     /\ getCommand r ["a"] =
          Some {| c_id := 1; c_path := ["a"]; c_aliases := []; c_options := command_def "a" |}
     /\ commands r <> commands r0)
  /\ (exists r0 r,
        program [RegisterCommand (command_def "a") None] = Returned tt r0
        /\ program [RegisterCommand (command_def "a") None;
                    RegisterGroup [group_def "a" None]] = Returned tt r
        /\ is_Some (getCommand r0 ["a"]) /\ getGroup r0 ["a"] = None
        /\ nth_error (logged r) 1
           = Some (Error, "A command already exists with the same name as this group: a")
        /\ is_Some (getCommand r ["a"])
        /\ is_Some (getGroup r ["a"])
        /\ groups r <> groups r0).
Proof.
  split.
  - eexists. eexists. split; [vm_compute; reflexivity|]. split; [vm_compute; reflexivity|].
    split; [vm_compute; eexists; reflexivity|].
    split; [vm_compute; reflexivity|].
    split; [vm_compute; reflexivity|].
    split; [vm_compute; eexists; reflexivity|].
    split; [vm_compute; reflexivity|].
    intros H. apply (f_equal (fun m => m !! "a")) in H. vm_compute in H. discriminate.
  - eexists. eexists. split; [vm_compute; reflexivity|]. split; [vm_compute; reflexivity|].
    split; [vm_compute; eexists; reflexivity|].
    split; [vm_compute; reflexivity|].
    split; [vm_compute; reflexivity|].
    split; [vm_compute; eexists; reflexivity|].
    split; [vm_compute; eexists; reflexivity|].
    intros H. apply (f_equal (fun m => m !! "a")) in H. vm_compute in H. discriminate.
Qed.

(** ** Removing a path from the cache removes its ancestors too *)

(** C1. The cache does not stay the index of the registered paths.
    [uncachePath] takes every prefix of the removed path out of the cache
    and stops at the first missing key.  After groups [a], [a/b], [a/b/c],
    [a/b/d] are registered and [a/b/c] is unregistered, [a], [a/b] and
    [a/b/d] are still registered but the root list and the list of [a] are
    gone, so the prefix [a] of [a/b/d] is no cache key and the cache
    differs from the index rebuilt from [commands] and [groups]; after
    [a/b/d] is unregistered as well, it is still listed under [a/b]. *)
Theorem cache_is_not_the_derived_index :
  (exists r,
     program (nested_groups ++ [UnregisterGroup ["a"; "b"; "c"]]) = Returned tt r
     /\ is_Some (getGroup r ["a"]) /\ is_Some (getGroup r ["a"; "b"])
     /\ is_Some (getGroup r ["a"; "b"; "d"])
     /\ getRootPaths r = []
     /\ cachedPaths r !! RegistryPath.toString ["a"] = None
     /\ cached_under r (RegistryPath.toString ["a"]) ["a"; "b"] = false
     /\ map_to_list (cachedPaths r) = [("a/b", [["a"; "b"; "d"]])]
     /\ rebuilt_cache table_sort r !! ROOT_KEY = Some [["a"]]
     /\ rebuilt_cache table_sort r !! "a" = Some [["a"; "b"]]
     /\ rebuilt_cache table_sort r !! "a/b" = Some [["a"; "b"; "d"]]
     /\ cachedPaths r <> rebuilt_cache table_sort r)
  /\ (exists r,
        program (nested_groups ++ [UnregisterGroup ["a"; "b"; "c"];
                                   UnregisterGroup ["a"; "b"; "d"]]) = Returned tt r
        /\ getGroup r ["a"; "b"; "d"] = None
        /\ getCommand r ["a"; "b"; "d"] = None
        /\ cached_under r (RegistryPath.toString ["a"; "b"]) ["a"; "b"; "d"] = true
        /\ cachedPaths r <> rebuilt_cache table_sort r).
Proof.
  split.
  - eexists. split; [vm_compute; reflexivity|].
    repeat split; try (vm_compute; reflexivity); try (vm_compute; eexists; reflexivity).
    intros H. apply (f_equal (fun m => m !! ROOT_KEY)) in H. vm_compute in H. discriminate.
  - eexists. split; [vm_compute; reflexivity|].
    repeat split; try (vm_compute; reflexivity).
    intros H. apply (f_equal (fun m => m !! ROOT_KEY)) in H. vm_compute in H. discriminate.
Qed.

(** C4. Registration does list the path under its parent, but the
    unregistration does not always take it out.  With [a], [a/b] and [a/c]
    registered, [getChildPaths a] holds both children; unregistering [a/b]
    also deletes the root list, so the walk of [uncachePath] for [a/c]
    stops at the missing root key: after [a/c] is unregistered it is still
    returned by [getChildPaths a], and the key of [a] is still there
    although [a/c] was its only child. *)
Theorem unregistered_path_stays_cached :
  exists r0 r1 r2,
    program sibling_groups = Returned tt r0
    /\ program (sibling_groups ++ [UnregisterGroup ["a"; "b"]]) = Returned tt r1
    /\ program (sibling_groups ++ [UnregisterGroup ["a"; "b"];
                                   UnregisterGroup ["a"; "c"]]) = Returned tt r2
    /\ getRootPaths r0 = [["a"]]
    /\ getChildPaths r0 (RegistryPath.parent ["a"; "c"]) = [["a"; "b"]; ["a"; "c"]]
    /\ getChildPaths r1 (RegistryPath.parent ["a"; "c"]) = [["a"; "c"]]
    /\ getRootPaths r1 = []
    /\ getGroup r2 ["a"; "c"] = None
    /\ getChildPaths r2 (RegistryPath.parent ["a"; "c"]) = [["a"; "c"]]
    /\ cachedPaths r2 !! RegistryPath.toString (RegistryPath.parent ["a"; "c"])
       = Some [["a"; "c"]].
Proof.
  do 3 eexists.
  split; [vm_compute; reflexivity|].
  split; [vm_compute; reflexivity|].
  split; [vm_compute; reflexivity|].
  repeat split; vm_compute; reflexivity.
Qed.

(** C6. [unregisterGroup] does walk children before the parent, but it does
    not clear the cache, and it only reaches the commands linked into the
    group object.  Unregistering [a] with child groups [a/b] and [a/c]
    empties [groups] and fires the three events, children first, yet one
    child is still listed in the cache under [a].  And a command that
    [registerCommand] put under group [a] is never linked to the group
    ([addCommand] is called without it): unregistering [a] leaves the
    command registered and fires no event for it. *)
Theorem unregisterGroup_leaves_descendants :
  (exists r,
     program (sibling_groups ++ [UnregisterGroup ["a"]]) = Returned tt r
     /\ groups r = ∅
     /\ drop 3 (fired r) = [groupUnregistered ["a"; "b"]; groupUnregistered ["a"; "c"];
                            groupUnregistered ["a"]]
     /\ getChildPaths r ["a"] = [["a"; "c"]]
     /\ cachedPaths r <> ∅)
  /\ (exists r,
        program [RegisterGroup [group_def "a" None];
                 RegisterCommand (command_def "x") (Some ["a"]);
                 UnregisterGroup ["a"]] = Returned tt r
        /\ getGroup r ["a"] = None
        /\ getCommand r ["a"; "x"] =
             Some {| c_id := 1; c_path := ["a"; "x"]; c_aliases := [];
                     c_options := command_def "x" |}
        /\ getChildPaths r ["a"] = [["a"; "x"]]
        /\ drop 2 (fired r) = [groupUnregistered ["a"]]).
Proof.
  split.
  - eexists. split; [vm_compute; reflexivity|].
    repeat split; try (vm_compute; reflexivity).
    intros H. apply (f_equal (fun m => m !! "a")) in H. vm_compute in H. discriminate.
  - eexists. split; [vm_compute; reflexivity|].
    repeat split; vm_compute; reflexivity.
Qed.

(** C7. [unregisterCommand] takes the command out of [commands] and fires
    its event once, but not always out of the cache.  With commands [a/x]
    and [a/y] under group [a], unregistering [a/x] also deletes the root
    list; unregistering [a/y] then succeeds, removes it from [commands]
    and fires one event, yet [a/y] is still listed in the cache under
    [a]. *)
Theorem unregisterCommand_leaves_cache_entry :
  exists r1 r2,
    program (sibling_commands ++ [UnregisterCommand ["a"; "x"]]) = Returned tt r1
    /\ program (sibling_commands ++ [UnregisterCommand ["a"; "x"];
                                     UnregisterCommand ["a"; "y"]]) = Returned tt r2
    /\ is_Some (getCommand r1 ["a"; "y"])
    /\ getRootPaths r1 = []
    /\ commands r2 = ∅
    /\ fired r2 = fired r1 ++ [commandUnregistered
                                 {| c_id := 2; c_path := ["a"; "y"]; c_aliases := [];
                                    c_options := command_def "y" |}]
    /\ cached_under r2 (RegistryPath.toString ["a"]) ["a"; "y"] = true
    /\ getChildPaths r2 ["a"] = [["a"; "y"]].
Proof.
  do 2 eexists.
  split; [vm_compute; reflexivity|].
  split; [vm_compute; reflexivity|].
  split; [vm_compute; eexists; reflexivity|].
  repeat split; vm_compute; reflexivity.
Qed.

(** ** What does hold of the cache and of [unregisterCommand] *)

Section CacheWalk.

Variable array_sort : forall A : Type, (A -> A -> bool) -> list A -> list A.
Hypothesis array_sort_permutation : forall l, array_sort _ by_tail l ≡ₚ l.

Lemma key_after_cons (path : RegistryPath) (i : nat) (range : list nat) (key : string) :
  key_after path (i :: range) key =
  key_after path range (RegistryPath.toString (RegistryPath.slice path 0 i)).
Proof.
  unfold key_after. destruct range as [|j range]; [reflexivity|].
  change (last (i :: j :: range)) with (last (j :: range)).
  destruct (last (j :: range)) eqn:E; [reflexivity|].
  apply last_None in E. discriminate.
Qed.

Lemma cachePath_loop_app (path : RegistryPath) (range1 range2 : list nat) (key : string)
    (cache_map : gmap string (list RegistryPath)) :
  cachePath_loop array_sort path (range1 ++ range2) key cache_map =
  cachePath_loop array_sort path range2 (key_after path range1 key)
    (cachePath_loop array_sort path range1 key cache_map).
Proof.
  revert key cache_map.
  induction range1 as [|i range1 IH]; intros key cache_map; [reflexivity|].
  rewrite key_after_cons. cbn [app cachePath_loop].
  destruct (existsb _ _); apply IH.
Qed.

Lemma cachePath_loop_last (path : RegistryPath) (i : nat) (key : string)
    (cache_map : gmap string (list RegistryPath)) :
  existsb (fun val => RegistryPath.equals val (RegistryPath.slice path 0 i))
          (default [] (cachePath_loop array_sort path [i] key cache_map !! key)) = true.
Proof.
  cbn [cachePath_loop].
  destruct (existsb _ (default [] (cache_map !! key))) eqn:E.
  - rewrite lookup_insert_eq. exact E.
  - rewrite lookup_insert_eq. cbn [default].
    apply existsb_exists. exists (RegistryPath.slice path 0 i). split.
    + apply (Permutation_in _ (Permutation_sym (array_sort_permutation _))).
      apply in_or_app. right. left. reflexivity.
    + apply String.eqb_refl.
Qed.

(** X20. After [cachePath p], for any path [p] with at least one segment,
    the list under the key of [p]'s parent (the root list when [p] has one
    segment) holds [p]. *)
Lemma cachePath_lists_path (path : RegistryPath) (cache_map : gmap string (list RegistryPath)) :
  path <> [] ->
  existsb (fun val => RegistryPath.equals val path)
          (default [] (cachePath array_sort path cache_map !! parent_key path)) = true.
Proof.
  intros Hpath. destruct (exists_last Hpath) as (parent & part & ->).
  unfold cachePath, parent_key, RegistryPath.size, RegistryPath.parent.
  rewrite removelast_last, length_app, Nat.add_1_r, seq_S, cachePath_loop_app.
  cbn [Nat.add].
  assert (Hslice : RegistryPath.slice (parent ++ [part]) 0 (length parent) = parent ++ [part]).
  { unfold RegistryPath.slice. rewrite drop_0. apply firstn_all2.
    rewrite length_app. cbn. lia. }
  assert (Hkey : key_after (parent ++ [part]) (seq 0 (length parent)) ROOT_KEY =
                 match parent with
                 | [] => ROOT_KEY
                 | _ :: _ => RegistryPath.toString parent
                 end).
  { unfold key_after. destruct parent as [|x parent]; [reflexivity|].
    cbn [length]. rewrite seq_S, last_snoc. cbn [Nat.add].
    unfold RegistryPath.slice. rewrite drop_0.
    change (S (length parent)) with (length (x :: parent)).
    rewrite take_app_length. reflexivity. }
  rewrite <- Hkey.
  pose proof (cachePath_loop_last (parent ++ [part]) (length parent)
                (key_after (parent ++ [part]) (seq 0 (length parent)) ROOT_KEY)
                (cachePath_loop array_sort (parent ++ [part]) (seq 0 (length parent)) ROOT_KEY
                   cache_map)) as H.
  rewrite Hslice in H. exact H.
Qed.

End CacheWalk.

Section UnregisterCommand.

Variable array_sort : forall A : Type, (A -> A -> bool) -> list A -> list A.

Lemma unregister_paths_commands (paths : list RegistryPath) (r : Registry) :
  commands (foldl (fun r path =>
                     with_cachedPaths (uncachePath array_sort path)
                       (with_commands (delete (RegistryPath.toString path)) r)) r paths)
  = foldl (fun m path => delete (RegistryPath.toString path) m) (commands r) paths.
Proof.
  revert r. induction paths as [|p paths IH]; intros r; [reflexivity|].
  cbn [foldl]. rewrite IH. reflexivity.
Qed.

Lemma unregister_paths_rest (paths : list RegistryPath) (r : Registry) :
  let r' := foldl (fun r path =>
                     with_cachedPaths (uncachePath array_sort path)
                       (with_commands (delete (RegistryPath.toString path)) r)) r paths in
  fired r' = fired r /\ groups r' = groups r /\ types r' = types r /\ store r' = store r.
Proof.
  revert r. induction paths as [|p paths IH]; intros r; [cbn; auto|].
  cbn [foldl]. cbn zeta in IH. destruct (IH (with_cachedPaths (uncachePath array_sort p)
    (with_commands (delete (RegistryPath.toString p)) r))) as (H1 & H2 & H3 & H4).
  cbn zeta. rewrite H1, H2, H3, H4. cbn. auto.
Qed.

Lemma lookup_foldl_delete (paths : list RegistryPath) (m : gmap string BaseCommand)
    (q : RegistryPath) :
  q ∈ paths ->
  foldl (fun m path => delete (RegistryPath.toString path) m) m paths
    !! RegistryPath.toString q = None.
Proof.
  intros Hq. induction paths as [|p paths IH] using rev_ind.
  - inversion Hq.
  - rewrite foldl_app. cbn [foldl].
    destruct (decide (RegistryPath.toString p = RegistryPath.toString q)) as [->|Hne].
    + apply lookup_delete_eq.
    + rewrite lookup_delete_ne by exact Hne. apply IH.
      apply elem_of_app in Hq. destruct Hq as [Hq|Hq]; [exact Hq|].
      apply list_elem_of_singleton in Hq. congruence.
Qed.

(** X21. [unregisterCommand] halts exactly when the path resolves to no
    command; it then leaves the registry as it was, with the message
    "Command is not registered: " followed by the path. *)
Lemma unregisterCommand_precondition (path : RegistryPath) (r : Registry) :
  (getCommand r path = None <->
   exists msg r', unregisterCommand array_sort path r = Thrown msg r')
  /\ (forall msg r', unregisterCommand array_sort path r = Thrown msg r' ->
                     r' = r /\ msg = "Command is not registered: " +:+ RegistryPath.toString path)
  /\ unregisterCommand array_sort path r <> OutOfFuel.
Proof.
  unfold unregisterCommand. destruct (getCommand r path) as [command|].
  - split; [split; [discriminate|intros (? & ? & [=])]|]. split; [intros ? ? [=]|discriminate].
  - split; [split; [eauto|reflexivity]|]. split; [|discriminate].
    intros ? ? [= <- <-]. auto.
Qed.

(** X22. When the path resolves to a command, [unregisterCommand] returns,
    every path the command owns (the primary path and the aliases) is gone
    from [commands], the [groups] table is untouched and
    [commandUnregistered] fires once. *)
Lemma unregisterCommand_removes_paths (path : RegistryPath) (r : Registry)
    (command : BaseCommand) :
  getCommand r path = Some command ->
  exists r',
    unregisterCommand array_sort path r = Returned tt r'
    /\ (forall q, q ∈ getPaths command -> getCommand r' q = None)
    /\ groups r' = groups r
    /\ fired r' = fired r ++ [commandUnregistered command].
Proof.
  intros Hc. unfold unregisterCommand. rewrite Hc. eexists. split; [reflexivity|].
  set (r1 := match getGroup r (RegistryPath.parent path) with
             | Some group => _
             | None => r
             end).
  assert (H1 : fired r1 = fired r /\ groups r1 = groups r).
  { subst r1. destruct (getGroup r (RegistryPath.parent path)); cbn; auto. }
  destruct (unregister_paths_rest (getPaths command) r1) as (Hf & Hg & _ & _).
  cbn zeta in Hf, Hg.
  split; [|split].
  - intros q Hq. unfold getCommand. cbn [log Fire commands].
    rewrite unregister_paths_commands. apply lookup_foldl_delete. exact Hq.
  - cbn [log Fire groups]. rewrite Hg. apply H1.
  - cbn [log Fire fired]. rewrite Hf. f_equal. apply H1.
Qed.

End UnregisterCommand.

Section AddCommand.

Variable array_sort : forall A : Type, (A -> A -> bool) -> list A -> list A.

Lemma commands_validatePath (path : RegistryPath) (isCommand : bool) (r : Registry) :
  commands (validatePath path isCommand r) = commands r.
Proof.
  unfold validatePath.
  repeat match goal with |- context [if ?b then _ else _] => destruct b end; reflexivity.
Qed.

Lemma add_paths_commands (command : BaseCommand) (paths : list RegistryPath) (r : Registry) :
  commands (foldl (fun r path =>
                     with_cachedPaths (cachePath array_sort path)
                       (with_commands (insert (RegistryPath.toString path) command)
                          (validatePath path true r))) r paths)
  = foldl (fun m path => <[RegistryPath.toString path := command]> m) (commands r) paths.
Proof.
  revert r. induction paths as [|p paths IH]; intros r; [reflexivity|].
  cbn [foldl]. rewrite IH. cbn [with_cachedPaths with_commands commands].
  rewrite commands_validatePath. reflexivity.
Qed.

Lemma lookup_foldl_insert_path (command : BaseCommand) (paths : list RegistryPath)
    (m : gmap string BaseCommand) (q : RegistryPath) :
  q ∈ paths ->
  foldl (fun m path => <[RegistryPath.toString path := command]> m) m paths
    !! RegistryPath.toString q = Some command.
Proof.
  intros Hq. induction paths as [|p paths IH] using rev_ind.
  - inversion Hq.
  - rewrite foldl_app. cbn [foldl].
    destruct (decide (RegistryPath.toString p = RegistryPath.toString q)) as [->|Hne].
    + apply lookup_insert_eq.
    + rewrite lookup_insert_ne by exact Hne. apply IH.
      apply elem_of_app in Hq. destruct Hq as [Hq|Hq]; [exact Hq|].
      apply list_elem_of_singleton in Hq. congruence.
Qed.

(** X23. Whatever [validatePath] reports (a bad segment, a command or a
    group already at the path), [addCommand] writes the command under every
    path it owns: afterwards [getCommand] finds it there. *)
Lemma addCommand_always_registers (command : BaseCommand) (group : option GroupRef)
    (r : Registry) (q : RegistryPath) :
  q ∈ getPaths command ->
  getCommand (addCommand array_sort command group r) q = Some command.
Proof.
  intros Hq. unfold getCommand, addCommand.
  cbn [log Fire commands].
  set (r1 := foldl _ r (getPaths command)).
  assert (H : commands r1 !! RegistryPath.toString q = Some command).
  { subst r1. rewrite add_paths_commands. apply lookup_foldl_insert_path. exact Hq. }
  destruct group; exact H.
Qed.

End AddCommand.

Section RegisterGroup.

Variable array_sort : forall A : Type, (A -> A -> bool) -> list A -> list A.

Lemma groups_validatePath (path : RegistryPath) (isCommand : bool) (r : Registry) :
  groups (validatePath path isCommand r) = groups r.
Proof.
  unfold validatePath.
  repeat match goal with |- context [if ?b then _ else _] => destruct b end; reflexivity.
Qed.

(** X24. When the parent of a group is not registered, the registration
    loop of [registerGroup] is left: what follows the group in the sorted
    batch has no effect at all, and [groups] is as it was when the group
    was reached. *)
Lemma registerGroup_loop_missing_parent (group : CommandGroup)
    (rest rest' : list CommandGroup) (r : Registry) :
  1 < RegistryPath.size (g_path group) ->
  getGroup r (RegistryPath.parent (g_path group)) = None ->
  registerGroup_loop array_sort (group :: rest) r =
  registerGroup_loop array_sort (group :: rest') r
  /\ getGroup (registerGroup_loop array_sort (group :: rest) r) (g_path group) =
     getGroup r (g_path group)
  /\ groups (registerGroup_loop array_sort (group :: rest) r) = groups r.
Proof.
  intros Hsize Hparent. unfold getGroup in *.
  cbn [registerGroup_loop allocate].
  apply Nat.ltb_lt in Hsize. rewrite Hsize.
  cbn [with_store groups]. rewrite !groups_validatePath, Hparent.
  cbn [log with_store groups]. auto.
Qed.

End RegisterGroup.

(** ** A parent is registered before its children *)

Lemma fired_validatePath (path : RegistryPath) (isCommand : bool) (r : Registry) :
  fired (validatePath path isCommand r) = fired r.
Proof.
  destruct (validatePath_cases path isCommand r) as [->|[msg ->]]; reflexivity.
Qed.

Lemma Forall_sublist {A} (P : A -> Prop) (l1 l2 : list A) :
  l1 `sublist_of` l2 -> Forall P l2 -> Forall P l1.
Proof.
  induction 1 as [|x l1 l2 Hsub IH|x l1 l2 Hsub IH]; intros Hall.
  - constructor.
  - apply Forall_cons in Hall. destruct Hall. constructor; auto.
  - apply Forall_cons in Hall. destruct Hall. auto.
Qed.

Lemma StronglySorted_sublist {A} (R : A -> A -> Prop) (l1 l2 : list A) :
  l1 `sublist_of` l2 -> StronglySorted R l2 -> StronglySorted R l1.
Proof.
  induction 1 as [|x l1 l2 Hsub IH|x l1 l2 Hsub IH]; intros Hs.
  - constructor.
  - apply StronglySorted_inv in Hs. destruct Hs as [Hs Hall].
    constructor; [auto|]. eapply Forall_sublist; eassumption.
  - apply StronglySorted_inv in Hs. destruct Hs as [Hs _]. auto.
Qed.

Lemma toString_child_ne (parentName name : string) :
  RegistryPath.toString [parentName; name] <> RegistryPath.toString [parentName].
Proof.
  unfold RegistryPath.toString. cbn [String.concat].
  induction parentName as [|c s IH]; [discriminate|].
  intros H. apply IH. injection H as H. exact H.
Qed.

Lemma separators_app (a b : string) : separators (a +:+ b) = separators a + separators b.
Proof.
  induction a as [|c a IH]; [reflexivity|].
  change (separators (String c (a +:+ b)) = separators (String c a) + separators b).
  cbn [separators]. rewrite IH. lia.
Qed.

Lemma toString_cons (part next : string) (rest : list string) :
  RegistryPath.toString (part :: next :: rest)
  = part +:+ "/" +:+ RegistryPath.toString (next :: rest).
Proof.
  reflexivity.
Qed.

Lemma size_le_separators (p : RegistryPath) :
  RegistryPath.size p <= S (separators (RegistryPath.toString p)).
Proof.
  induction p as [|part [|next rest] IH]; [cbn; lia|cbn; lia|].
  rewrite toString_cons, !separators_app.
  change (RegistryPath.size (part :: next :: rest)) with (S (RegistryPath.size (next :: rest))).
  change (separators "/") with 1. lia.
Qed.

Lemma all_word_chars_no_separator (s : string) :
  all_word_chars s = true -> separators s = 0.
Proof.
  induction s as [|c s IH]; [reflexivity|].
  cbn [all_word_chars separators]. intros H. apply andb_true_iff in H. destruct H as [Hc Hs].
  rewrite (IH Hs). destruct (Ascii.eqb_spec c "/") as [->|_]; [discriminate|reflexivity].
Qed.

Lemma matches_word_no_separator (s : string) :
  matches_word s = true -> separators s = 0.
Proof.
  destruct s; [discriminate|]. apply all_word_chars_no_separator.
Qed.

Lemma size_valid_path (p : RegistryPath) :
  forallb matches_word p = true -> p <> [] ->
  RegistryPath.size p = S (separators (RegistryPath.toString p)).
Proof.
  induction p as [|part [|next rest] IH]; intros Hvalid Hp; [congruence| |].
  - cbn in *. apply andb_true_iff in Hvalid. destruct Hvalid as [H _].
    rewrite (matches_word_no_separator _ H). reflexivity.
  - rewrite toString_cons, !separators_app.
    change (RegistryPath.size (part :: next :: rest)) with (S (RegistryPath.size (next :: rest))).
    cbn [forallb] in Hvalid. apply andb_true_iff in Hvalid. destruct Hvalid as [H Hrest].
    rewrite IH by (exact Hrest || discriminate).
    rewrite (matches_word_no_separator _ H). change (separators "/") with 1. lia.
Qed.

Lemma forallb_removelast {A} (f : A -> bool) (l : list A) :
  forallb f l = true -> forallb f (removelast l) = true.
Proof.
  induction l as [|x [|y l] IH]; [auto|auto|].
  intros H. change (forallb f (x :: y :: l)) with (f x && forallb f (y :: l)) in H.
  apply andb_true_iff in H. destruct H as [Hx Hl].
  change (removelast (x :: y :: l)) with (x :: removelast (y :: l)).
  cbn [forallb]. rewrite Hx. exact (IH Hl).
Qed.

(** The loop looks the parent of a group up by the string of its parent
    path.  When the segments of the group pass the check of [validatePath],
    whatever is registered under that string is shallower than the group. *)
Lemma parent_by_string_is_shallower (parentPath path : RegistryPath) :
  1 < RegistryPath.size path ->
  forallb matches_word path = true ->
  RegistryPath.toString parentPath = RegistryPath.toString (RegistryPath.parent path) ->
  RegistryPath.size parentPath < RegistryPath.size path.
Proof.
  intros Hsize Hvalid Hparent.
  pose proof (size_le_separators parentPath) as Hle.
  assert (Hne : path <> []) by (intros ->; cbn in Hsize; lia).
  pose proof (size_parent path Hne) as Hlt.
  assert (Hne' : RegistryPath.parent path <> []).
  { destruct path as [|x [|y l]]; cbn in Hsize; try lia. discriminate. }
  pose proof (size_valid_path _ (forallb_removelast _ _ Hvalid) Hne') as Heq.
  unfold RegistryPath.parent in *. rewrite Hparent in Hle. lia.
Qed.

Section RegisterGroupOrder.

Variable array_sort : forall A : Type, (A -> A -> bool) -> list A -> list A.
Hypothesis Hsort : SortSpec array_sort.

Lemma registerGroup_loop_keeps_groups (commandGroups : list CommandGroup) (r : Registry)
    (k : string) :
  is_Some (groups r !! k) ->
  is_Some (groups (registerGroup_loop array_sort commandGroups r) !! k).
Proof.
  revert r. induction commandGroups as [|group rest IH]; intros r Hk; [exact Hk|].
  cbn [registerGroup_loop allocate].
  pose proof (groups_validatePath (g_path group) false r) as Hv.
  set (r1 := validatePath (g_path group) false r) in *.
  assert (Hreg : forall r2, groups r2 = groups r1 ->
            is_Some (groups (with_groups (<[RegistryPath.toString (g_path group)
                                            := allocated r1]>) r2) !! k)).
  { intros r2 H2. cbn. rewrite H2, Hv.
    destruct (decide (RegistryPath.toString (g_path group) = k)) as [<-|Hne].
    - rewrite lookup_insert_eq. eauto.
    - rewrite lookup_insert_ne by exact Hne. exact Hk. }
  destruct (Nat.ltb 1 (RegistryPath.size (g_path group))).
  - cbn [with_store groups]. destruct (groups r1 !! _) as [parentGroup|].
    + destruct (CommandGroup.hasGroup _ _).
      * apply IH. cbn. rewrite Hv. exact Hk.
      * apply IH. cbn [log Fire with_cachedPaths groups]. apply Hreg. reflexivity.
    + cbn. rewrite Hv. exact Hk.
  - apply IH. cbn [log Fire with_cachedPaths groups]. apply Hreg. reflexivity.
Qed.

Lemma registerGroup_loop_registered (commandGroups : list CommandGroup) (r : Registry) :
  exists registered,
    registered `sublist_of` commandGroups
    /\ fired (registerGroup_loop array_sort commandGroups r)
       = fired r ++ map (fun group => groupRegistered (g_path group)) registered
    /\ Forall (fun group =>
                 is_Some (getGroup (registerGroup_loop array_sort commandGroups r) (g_path group))
                 /\ (1 < RegistryPath.size (g_path group) ->
                     is_Some (getGroup (registerGroup_loop array_sort commandGroups r)
                                (RegistryPath.parent (g_path group)))))
              registered.
Proof.
  revert r. induction commandGroups as [|group rest IH]; intros r.
  - exists []. split; [constructor|]. split; [cbn; rewrite app_nil_r; reflexivity|constructor].
  - cbn [registerGroup_loop allocate].
    pose proof (groups_validatePath (g_path group) false r) as Hv.
    pose proof (fired_validatePath (g_path group) false r) as Hf.
    set (r1 := validatePath (g_path group) false r) in *.
    assert (Hreg : forall r2,
              fired r2 = fired r1 -> groups r2 = groups r1 ->
              (1 < RegistryPath.size (g_path group) ->
               is_Some (groups r1 !! RegistryPath.toString (RegistryPath.parent (g_path group)))) ->
              let r3 := log Debug ("Registered group: " +:+ RegistryPath.toString (g_path group))
                          (Fire (groupRegistered (g_path group))
                             (with_cachedPaths (cachePath array_sort (g_path group))
                                (with_groups (<[RegistryPath.toString (g_path group)
                                                := allocated r1]>) r2))) in
              exists registered,
                registered `sublist_of` group :: rest
                /\ fired (registerGroup_loop array_sort rest r3)
                   = fired r ++ map (fun group => groupRegistered (g_path group)) registered
                /\ Forall (fun group =>
                     is_Some (getGroup (registerGroup_loop array_sort rest r3) (g_path group))
                     /\ (1 < RegistryPath.size (g_path group) ->
                         is_Some (getGroup (registerGroup_loop array_sort rest r3)
                                    (RegistryPath.parent (g_path group)))))
                     registered).
    { intros r2 H2 Hg2 Hparent r3.
      destruct (IH r3) as (registered & Hsub & Hfired & Hall).
      exists (group :: registered). split; [constructor; exact Hsub|]. split.
      - rewrite Hfired. subst r3. cbn [log Fire fired map with_cachedPaths with_groups]. rewrite H2, Hf, <- app_assoc.
        reflexivity.
      - constructor; [|exact Hall]. unfold getGroup. split.
        + apply registerGroup_loop_keeps_groups. subst r3. cbn.
          rewrite lookup_insert_eq. eauto.
        + intros Hsize. apply registerGroup_loop_keeps_groups. subst r3. cbn.
          rewrite Hg2.
          destruct (decide (RegistryPath.toString (g_path group)
                            = RegistryPath.toString (RegistryPath.parent (g_path group))))
            as [<-|Hne].
          * rewrite lookup_insert_eq. eauto.
          * rewrite lookup_insert_ne by exact Hne. auto. }
    destruct (Nat.ltb 1 (RegistryPath.size (g_path group))) eqn:Esize.
    + cbn [with_store groups].
      destruct (groups r1 !! _) as [parentGroup|] eqn:Eparent.
      * destruct (CommandGroup.hasGroup _ _).
        -- match goal with |- context [registerGroup_loop array_sort rest ?r2] =>
             destruct (IH r2) as (registered & Hsub & Hfired & Hall) end.
           exists registered. split; [constructor; exact Hsub|]. split; [|exact Hall].
           rewrite Hfired. cbn. rewrite Hf. reflexivity.
        -- apply Hreg; [reflexivity|reflexivity|eauto].
      * exists []. split; [apply sublist_nil_l|]. split; [|constructor].
        cbn. rewrite Hf, app_nil_r. reflexivity.
    + apply Hreg; [reflexivity|reflexivity|]. intros H. apply Nat.ltb_lt in H. congruence.
Qed.

Lemma sorted_pair (small big : CommandGroup) (batch : list CommandGroup) :
  RegistryPath.size (g_path small) < RegistryPath.size (g_path big) ->
  batch = [small; big] \/ batch = [big; small] ->
  array_sort _ by_size batch = [small; big].
Proof.
  intros Hsize Hbatch.
  pose proof (sort_permutation _ Hsort _ by_size batch) as Hperm.
  pose proof (sort_sorted _ Hsort _ by_size by_size_transitive by_size_total batch) as Hs.
  assert (Hp : [small; big] ≡ₚ array_sort _ by_size batch).
  { rewrite Hperm. destruct Hbatch as [->| ->]; [reflexivity|apply perm_swap]. }
  apply Permutation_length_2_inv in Hp. destruct Hp as [Hp|Hp]; [exact Hp|].
  rewrite Hp in Hs. apply StronglySorted_inv in Hs. destruct Hs as [_ Hall].
  apply Forall_cons in Hall. destruct Hall as [Hle _].
  apply by_size_false in Hle. lia.
Qed.

Lemma registerGroup_pair (parentGroup child : GroupOptions) (parentName : string)
    (batch : list GroupOptions) (r : Registry) :
  go_parent parentGroup = None ->
  go_parent child = Some [parentName] ->
  lower parentName = lower (go_name parentGroup) ->
  batch = [parentGroup; child] \/ batch = [child; parentGroup] ->
  let r' := registerGroup array_sort batch r in
  let parentPath := [lower (go_name parentGroup)] in
  let childPath := [lower (go_name parentGroup); lower (go_name child)] in
  getGroup r' parentPath = Some (allocated r)
  /\ getGroup r' childPath = Some (S (allocated r))
  /\ CommandGroup.getGroups (deref r' (allocated r)) = [S (allocated r)]
  /\ fired r' = fired r ++ [groupRegistered parentPath; groupRegistered childPath].
Proof.
  intros Hroot Hchild Hname Hbatch r' parentPath childPath. subst r'. unfold registerGroup.
  assert (Hp : new_group parentGroup = CommandGroup.create parentPath parentGroup).
  { unfold new_group. rewrite Hroot. reflexivity. }
  assert (Hc : new_group child = CommandGroup.create childPath child).
  { unfold new_group. rewrite Hchild. cbn [map app]. rewrite Hname. reflexivity. }
  rewrite (sorted_pair (new_group parentGroup) (new_group child)).
  2: { rewrite Hp, Hc. cbn. lia. }
  2: { destruct Hbatch as [->| ->]; [left|right]; reflexivity. }
  rewrite Hp, Hc. subst parentPath childPath.
  remember (registerGroup_loop array_sort _ r) as r' eqn:Hr'. revert Hr'.
  cbn [registerGroup_loop allocate g_path CommandGroup.create RegistryPath.size length Nat.ltb
       Nat.leb].
  destruct (validatePath_cases [lower (go_name parentGroup)] false r) as [->|[msg ->]];
    match goal with |- context [validatePath ?p ?b ?x] =>
      destruct (validatePath_cases p b x) as [->|[msg' ->]] end;
    cbn [with_store with_groups with_cachedPaths log Fire groups store allocated fired
         RegistryPath.parent removelast];
    rewrite lookup_insert_eq;
    unfold deref; cbn [store with_store];
    rewrite lookup_insert_ne by lia; rewrite lookup_insert_eq;
    cbn [default from_option id CommandGroup.hasGroup CommandGroup.create g_groups existsb
         registerGroup_loop g_options g_path];
    intros ->; unfold getGroup, deref, CommandGroup.getGroups;
    cbn [with_store with_groups with_cachedPaths log Fire groups store allocated fired];
    rewrite lookup_insert_eq, (lookup_insert_ne _ _ _ _ (toString_child_ne _ _)),
      !lookup_insert_eq;
    cbn [default from_option id CommandGroup.addGroup CommandGroup.create
         CommandGroup.removeName g_groups List.filter app map snd];
    rewrite <- app_assoc; auto.
Qed.

End RegisterGroupOrder.

(** C9. [registerGroup] registers from the batch sorted by path depth, so
    within one call a parent group is registered before its child groups,
    whatever the order the definitions were given in:
    - the array the loop walks is a rearrangement of the batch in which a
      shallower group comes before a deeper one, so the parent of a group
      comes before the group, be it the group at the parent path or, for a
      group whose segments pass the check of [validatePath], the group the
      loop finds under the string of the parent path;
    - the groups the call registers are groups of that array, in its order:
      [groupRegistered] is fired for them in that order, so never for a
      child before its parent; each of them is in [groups] when the call is
      over, and so is the parent of each that has one;
    - a parent and its child given in one call, in either order, are both
      registered, the parent first, and the child is linked into the new
      parent object. *)
Theorem registerGroup_parents_first
    (array_sort : forall A : Type, (A -> A -> bool) -> list A -> list A)
    (Hsort : SortSpec array_sort) (gs : list GroupOptions) (r : Registry) :
  let batch := array_sort _ by_size (map new_group gs) in
  let r' := registerGroup array_sort gs r in
  registerGroup array_sort gs r = registerGroup_loop array_sort batch r
  /\ batch ≡ₚ map new_group gs
  /\ (forall i j g1 g2,
        batch !! i = Some g1 -> batch !! j = Some g2 ->
        RegistryPath.size (g_path g1) < RegistryPath.size (g_path g2) -> i < j)
  /\ (forall i j parentGroup group,
        batch !! i = Some parentGroup -> batch !! j = Some group ->
        g_path parentGroup = RegistryPath.parent (g_path group) -> i < j)
  /\ (forall i j parentGroup group,
        batch !! i = Some parentGroup -> batch !! j = Some group ->
        1 < RegistryPath.size (g_path group) ->
        forallb matches_word (g_path group) = true ->
        RegistryPath.toString (g_path parentGroup)
        = RegistryPath.toString (RegistryPath.parent (g_path group)) -> i < j)
  /\ (exists registered,
        registered `sublist_of` batch
        /\ fired r' = fired r ++ map (fun group => groupRegistered (g_path group)) registered
        /\ (forall group, group ∈ registered ->
              is_Some (getGroup r' (g_path group))
              /\ (1 < RegistryPath.size (g_path group) ->
                  is_Some (getGroup r' (RegistryPath.parent (g_path group)))))
        /\ (forall i j g1 g2,
              registered !! i = Some g1 -> registered !! j = Some g2 ->
              RegistryPath.size (g_path g1) < RegistryPath.size (g_path g2) -> i < j))
  /\ (forall parentGroup child parentName,
        go_parent parentGroup = None ->
        go_parent child = Some [parentName] ->
        lower parentName = lower (go_name parentGroup) ->
        gs = [parentGroup; child] \/ gs = [child; parentGroup] ->
        getGroup r' [lower (go_name parentGroup)] = Some (allocated r)
        /\ getGroup r' [lower (go_name parentGroup); lower (go_name child)]
           = Some (S (allocated r))
        /\ CommandGroup.getGroups (deref r' (allocated r)) = [S (allocated r)]
        /\ fired r' = fired r ++ [groupRegistered [lower (go_name parentGroup)];
                                  groupRegistered [lower (go_name parentGroup);
                                                   lower (go_name child)]]).
Proof.
  intros batch r'.
  pose proof (sort_sorted _ Hsort _ by_size by_size_transitive by_size_total
                (map new_group gs)) as Hs.
  fold batch in Hs.
  assert (Hlt : forall l, StronglySorted (fun a b => by_size b a = false) l ->
            forall i j g1 g2,
              l !! i = Some g1 -> l !! j = Some g2 ->
              RegistryPath.size (g_path g1) < RegistryPath.size (g_path g2) -> i < j).
  { intros l Hl i j g1 g2 Hi Hj Hsz.
    destruct (Nat.lt_trichotomy i j) as [Hij|[->|Hji]]; [exact Hij| |].
    - rewrite Hi in Hj. injection Hj as ->. lia.
    - pose proof (StronglySorted_lookup _ _ _ _ _ _ Hl Hj Hi Hji) as Hle.
      apply by_size_false in Hle. lia. }
  split; [reflexivity|].
  split; [apply (sort_permutation _ Hsort)|].
  split; [exact (Hlt batch Hs)|].
  split; [|split; [|split]].
  - intros i j parentGroup group Hi Hj Hparent.
    apply (Hlt batch Hs i j parentGroup group Hi Hj).
    rewrite Hparent. apply size_parent.
    assert (Hin : group ∈ map new_group gs).
    { rewrite <- (sort_permutation _ Hsort _ by_size).
      eapply list_elem_of_lookup_2. exact Hj. }
    apply list_elem_of_In, in_map_iff in Hin. destruct Hin as (g & <- & _).
    unfold new_group. cbn. destruct (go_parent g); cbn; intros H.
    + apply app_eq_nil in H. destruct H as [_ H]. discriminate.
    + discriminate.
  - intros i j parentGroup group Hi Hj Hsize Hvalid Hparent.
    apply (Hlt batch Hs i j parentGroup group Hi Hj).
    apply parent_by_string_is_shallower; assumption.
  - destruct (registerGroup_loop_registered array_sort batch r)
      as (registered & Hsub & Hfired & Hall).
    exists registered. split; [exact Hsub|]. split; [exact Hfired|].
    split; [exact (proj1 (Forall_forall _ _) Hall)|].
    apply Hlt. eapply StronglySorted_sublist; eassumption.
  - intros parentGroup child parentName Hroot Hchild Hname Hgs.
    exact (registerGroup_pair array_sort Hsort parentGroup child parentName gs r
             Hroot Hchild Hname Hgs).
Qed.

(** The child [a/b] is given first, with its parent spelled [A]; the
    parent [a] is registered first, then the child. *)
Lemma registerGroup_parents_first_witness :
  let gs := [group_def "b" (Some ["A"]); group_def "a" None] in
  let r' := registerGroup table_sort gs empty_registry in
  SortSpec table_sort
  /\ getGroup r' ["a"] = Some 0
  /\ getGroup r' ["a"; "b"] = Some 1
  /\ CommandGroup.getGroups (deref r' 0) = [1]
  /\ fired r' = [groupRegistered ["a"]; groupRegistered ["a"; "b"]].
Proof.
  intros gs r'. split; [exact table_sort_spec|].
  destruct (registerGroup_parents_first table_sort table_sort_spec gs empty_registry)
    as (_ & _ & _ & _ & _ & _ & H).
  exact (H (group_def "a" None) (group_def "b" (Some ["A"])) "A" eq_refl eq_refl eq_refl
           (or_intror eq_refl)).
Defined.

(** The check on the segments matters for the lookup by string.  A name
    with a separator in it is reported by [validatePath] and registered all
    the same, and then the group under the string of a parent path can be
    the deeper one: [x/y/z], of three segments, is what the loop finds as
    the parent of [w] under the one segment [x/y/z].  Given in one call,
    [w] is the shallower and is reached first; its parent is missing, and
    the call ends with neither of them registered. *)
Example registerGroup_separator_in_name :
  let r := registry_after (program [RegisterGroup [group_def "x" None];
                                    RegisterGroup [group_def "y" (Some ["x"])]]) in
  let r' := registerGroup table_sort
              [group_def "z" (Some ["x"; "y"]); group_def "w" (Some ["x/y/z"])] r in
  getGroup r' ["x"; "y"; "z"] = None
  /\ getGroup r' ["x/y/z"; "w"] = None
  /\ fired r' = fired r
  /\ last (logged r') = Some (Error, "Parent group 'x/y/z' for group 'x/y/z/w' is not registered").
Proof.
  intros r r'. split; [|split; [|split]]; vm_compute; reflexivity.
Qed.

(** * More of the registry *)

(** ** The order of the cache lists *)

Lemma string_compare_OT (s t : string) : String.compare s t = String_as_OT.compare s t.
Proof.
  revert t. induction s as [|c s IH]; intros [|d t]; cbn; rewrite ?IH; reflexivity.
Qed.

Lemma ltb_false_iff (s t : string) : String.ltb s t = false <-> ~ String_as_OT.lt s t.
Proof.
  unfold String.ltb, String_as_OT.lt. rewrite string_compare_OT.
  destruct (String_as_OT.compare s t); split; intros H; try reflexivity;
    try discriminate; try (intros [=]); try (exfalso; apply H; reflexivity).
Qed.

Lemma by_tail_transitive : Transitive (fun a b => by_tail b a = false).
Proof.
  intros a b c. unfold by_tail. rewrite !ltb_false_iff. intros Hba Hcb Hca.
  destruct (String_as_OT.compare_spec (RegistryPath.tail b) (RegistryPath.tail a)) as [E|L|G].
  - apply Hcb. unfold String_as_OT.eq in E. rewrite E. exact Hca.
  - exact (Hba L).
  - apply Hcb. exact (StrictOrder_Transitive _ _ _ Hca G).
Qed.

Lemma by_tail_total : Total (fun a b => by_tail b a = false).
Proof.
  intros a b. unfold by_tail. rewrite !ltb_false_iff.
  destruct (String_as_OT.compare_spec (RegistryPath.tail a) (RegistryPath.tail b)) as [E|L|G].
  - left. unfold String_as_OT.eq in E. rewrite E. apply StrictOrder_Irreflexive.
  - left. intros H. exact (StrictOrder_Irreflexive _ (StrictOrder_Transitive _ _ _ L H)).
  - right. intros H. exact (StrictOrder_Irreflexive _ (StrictOrder_Transitive _ _ _ G H)).
Qed.

(** ** The cache entries stay well formed *)

Lemma NoDup_map_filter {A B} (g : A -> B) (f : A -> bool) (l : list A) :
  NoDup (map g l) -> NoDup (map g (List.filter f l)).
Proof.
  induction l as [|x l IH]; cbn; intros H; [exact H|].
  apply NoDup_cons in H. destruct H as [Hx Hl].
  destruct (f x); cbn; [|exact (IH Hl)].
  apply NoDup_cons. split; [|exact (IH Hl)].
  intros Hin. apply Hx. apply list_elem_of_In in Hin. apply list_elem_of_In.
  apply in_map_iff in Hin. destruct Hin as (y & Hy & Hin).
  apply filter_In in Hin. apply in_map_iff. exists y. tauto.
Qed.

Lemma existsb_equals_false (cache : list RegistryPath) (p : RegistryPath) :
  existsb (fun val => RegistryPath.equals val p) cache = false ->
  ~ In (RegistryPath.toString p) (map RegistryPath.toString cache).
Proof.
  intros H Hin. apply in_map_iff in Hin. destruct Hin as (val & Heq & Hin).
  assert (Ht : existsb (fun val => RegistryPath.equals val p) cache = true).
  { apply existsb_exists. exists val. split; [exact Hin|].
    unfold RegistryPath.equals. rewrite Heq. apply String.eqb_refl. }
  congruence.
Qed.

Lemma cache_ok_insert (cache_map : gmap string (list RegistryPath)) (key : string)
    (l : list RegistryPath) :
  cache_ok cache_map -> cache_entry_ok key l -> cache_ok (<[key := l]> cache_map).
Proof.
  intros Hm Hl k l'. destruct (decide (key = k)) as [<-|Hne].
  - rewrite lookup_insert_eq. intros [= <-]. exact Hl.
  - rewrite lookup_insert_ne by exact Hne. apply Hm.
Qed.

Lemma cache_ok_delete (cache_map : gmap string (list RegistryPath)) (key : string) :
  cache_ok cache_map -> cache_ok (delete key cache_map).
Proof.
  intros Hm k l H. apply lookup_delete_Some in H. apply Hm. tauto.
Qed.

Lemma cache_ok_empty : cache_ok ∅.
Proof.
  intros k l H. rewrite lookup_empty in H. discriminate.
Qed.

Section CacheInvariant.

Variable array_sort : forall A : Type, (A -> A -> bool) -> list A -> list A.
Hypothesis Hsort : SortSpec array_sort.

Lemma sorted_by_tail (l : list RegistryPath) :
  StronglySorted (fun a b => by_tail b a = false) (array_sort _ by_tail l).
Proof.
  apply (sort_sorted _ Hsort); [exact by_tail_transitive|exact by_tail_total].
Qed.

Lemma sort_not_nil {A} (lt : A -> A -> bool) (l : list A) :
  l <> [] -> array_sort A lt l <> [].
Proof.
  intros Hl Hnil. pose proof (sort_permutation _ Hsort A lt l) as Hp.
  rewrite Hnil in Hp. apply Permutation_nil in Hp. exact (Hl Hp).
Qed.

Lemma entry_ok_push (key : string) (cache : list RegistryPath) (p : RegistryPath) :
  NoDup (map RegistryPath.toString cache) ->
  Forall (fun val => val <> [] /\ parent_key val = key) cache ->
  existsb (fun val => RegistryPath.equals val p) cache = false ->
  p <> [] -> parent_key p = key ->
  cache_entry_ok key (array_sort _ by_tail (cache ++ [p])).
Proof.
  intros Hnd Hall Hex Hp Hkey.
  pose proof (sort_permutation _ Hsort _ by_tail (cache ++ [p])) as Hperm.
  split; [|split; [|split]].
  - apply sort_not_nil. destruct cache; discriminate.
  - rewrite (Permutation_map RegistryPath.toString Hperm).
    rewrite map_app. cbn. apply NoDup_app. split; [exact Hnd|]. split.
    + intros x Hx Hx'. apply list_elem_of_singleton in Hx'. subst x.
      apply (existsb_equals_false _ _ Hex). apply list_elem_of_In. exact Hx.
    + apply NoDup_singleton.
  - apply sorted_by_tail.
  - rewrite Hperm. apply Forall_app. split; [exact Hall|].
    apply Forall_cons. split; [auto|apply Forall_nil_2].
Qed.

Lemma entry_ok_filter (key : string) (cache : list RegistryPath) (f : RegistryPath -> bool) :
  cache_entry_ok key cache ->
  array_sort _ by_tail (List.filter f cache) <> [] ->
  cache_entry_ok key (array_sort _ by_tail (List.filter f cache)).
Proof.
  intros (_ & Hnd & _ & Hall) Hne.
  pose proof (sort_permutation _ Hsort _ by_tail (List.filter f cache)) as Hperm.
  split; [exact Hne|]. split; [|split].
  - rewrite (Permutation_map RegistryPath.toString Hperm).
    apply NoDup_map_filter. exact Hnd.
  - apply sorted_by_tail.
  - rewrite Hperm. apply Forall_forall. intros val Hval.
    apply list_elem_of_In, filter_In in Hval. destruct Hval as [Hval _].
    rewrite Forall_forall in Hall. apply Hall. apply list_elem_of_In. exact Hval.
Qed.

Lemma cache_default_ok (cache_map : gmap string (list RegistryPath)) (key : string) :
  cache_ok cache_map ->
  NoDup (map RegistryPath.toString (default [] (cache_map !! key)))
  /\ Forall (fun val => val <> [] /\ parent_key val = key) (default [] (cache_map !! key)).
Proof.
  intros Hm. destruct (cache_map !! key) as [l|] eqn:E; cbn.
  - destruct (Hm _ _ E) as (_ & Hnd & _ & Hall). auto.
  - split; [apply NoDup_nil_2|apply Forall_nil_2].
Qed.

(** The key the cache walk is at when it reaches index [a]. *)
Lemma slice_parent_key (path : RegistryPath) (a : nat) :
  a < RegistryPath.size path ->
  RegistryPath.slice path 0 a <> []
  /\ parent_key (RegistryPath.slice path 0 a) =
     match a with
     | 0 => ROOT_KEY
     | S a' => RegistryPath.toString (RegistryPath.slice path 0 a')
     end.
Proof.
  unfold RegistryPath.size, RegistryPath.slice, parent_key, RegistryPath.parent.
  intros Ha. rewrite !drop_0.
  destruct path as [|x path]; [cbn in Ha; lia|].
  split; [discriminate|].
  destruct a as [|a'].
  - reflexivity.
  - rewrite removelast_firstn by exact Ha. rewrite drop_0. reflexivity.
Qed.

Lemma cachePath_loop_ok (path : RegistryPath) (n a : nat) (key : string)
    (cache_map : gmap string (list RegistryPath)) :
  a + n <= RegistryPath.size path ->
  key = match a with
        | 0 => ROOT_KEY
        | S a' => RegistryPath.toString (RegistryPath.slice path 0 a')
        end ->
  cache_ok cache_map ->
  cache_ok (cachePath_loop array_sort path (seq a n) key cache_map).
Proof.
  revert a key cache_map.
  induction n as [|n IH]; intros a key cache_map Han Hkey Hm; [exact Hm|].
  cbn [seq cachePath_loop].
  destruct (slice_parent_key path a) as [Hne Hpk]; [lia|].
  rewrite <- Hkey in Hpk.
  destruct (cache_default_ok cache_map key Hm) as [Hnd Hall].
  destruct (existsb _ _) eqn:Hex.
  - apply IH; [lia|reflexivity|].
    destruct (cache_map !! key) as [l|] eqn:E; [|discriminate].
    cbn. rewrite insert_id by exact E. exact Hm.
  - apply IH; [lia|reflexivity|].
    rewrite insert_insert_eq. apply cache_ok_insert; [exact Hm|].
    apply entry_ok_push; assumption.
Qed.

Lemma cachePath_ok (path : RegistryPath) (cache_map : gmap string (list RegistryPath)) :
  cache_ok cache_map -> cache_ok (cachePath array_sort path cache_map).
Proof.
  intros Hm. apply cachePath_loop_ok; [lia|reflexivity|exact Hm].
Qed.

Lemma uncachePath_loop_ok (path : RegistryPath) (range : list nat) (key : string)
    (cache_map : gmap string (list RegistryPath)) :
  cache_ok cache_map ->
  cache_ok (uncachePath_loop array_sort path range key cache_map).
Proof.
  revert key cache_map.
  induction range as [|i range IH]; intros key cache_map Hm; [exact Hm|].
  cbn [uncachePath_loop].
  destruct (cache_map !! key) as [cache|] eqn:E; [|exact Hm].
  apply IH.
  destruct (array_sort _ by_tail _) as [|x l] eqn:Es.
  - apply cache_ok_delete. exact Hm.
  - apply cache_ok_insert; [exact Hm|]. rewrite <- Es.
    apply entry_ok_filter; [exact (Hm _ _ E)|]. rewrite Es. discriminate.
Qed.

Lemma uncachePath_ok (path : RegistryPath) (cache_map : gmap string (list RegistryPath)) :
  cache_ok cache_map -> cache_ok (uncachePath array_sort path cache_map).
Proof.
  apply uncachePath_loop_ok.
Qed.

End CacheInvariant.

(** ** Properties kept by the calls *)

Lemma preserves_ret {A} (P : Registry -> Prop) (a : A) : preserves P (ret a).
Proof.
  intros r Hr. exact Hr.
Qed.

Lemma preserves_effect (P : Registry -> Prop) (f : Registry -> Registry) :
  (forall r, P r -> P (f r)) -> preserves P (effect f).
Proof.
  intros Hf r Hr. apply Hf. exact Hr.
Qed.

Lemma preserves_bind {A B} (P : Registry -> Prop) (m : M A) (k : A -> M B) :
  preserves P m -> (forall a, preserves P (k a)) -> preserves P (bind m k).
Proof.
  intros Hm Hk r Hr. unfold bind. specialize (Hm r Hr).
  destruct (m r) as [a r'|msg r'|]; [|exact Hm|exact I].
  apply Hk. exact Hm.
Qed.

Lemma preserves_for_each {A} (P : Registry -> Prop) (xs : list A) (body : A -> M unit) :
  (forall x, x ∈ xs -> preserves P (body x)) -> preserves P (for_each xs body).
Proof.
  induction xs as [|x xs IH]; intros Hbody; [apply preserves_ret|].
  cbn [for_each]. apply preserves_bind.
  - apply Hbody. left.
  - intros _. apply IH. intros y Hy. apply Hbody. right. exact Hy.
Qed.

Section KeepsCache.

Variable array_sort : forall A : Type, (A -> A -> bool) -> list A -> list A.
Variable alias_paths : RegistryPath -> CommandOptions -> list RegistryPath.

(** A property of the child-path cache that [cachePath] and [uncachePath]
    keep. *)
Variable Q : gmap string (list RegistryPath) -> Prop.
Hypothesis Q_cachePath : forall path cache_map, Q cache_map -> Q (cachePath array_sort path cache_map).
Hypothesis Q_uncachePath : forall path cache_map, Q cache_map -> Q (uncachePath array_sort path cache_map).

Lemma keeps_registerType (ts : list ArgumentType) (r : Registry) :
  cachedPaths (registerType ts r) = cachedPaths r.
Proof.
  unfold registerType. revert r.
  induction ts as [|t ts IH]; intros r; [reflexivity|].
  cbn [foldl]. rewrite IH. reflexivity.
Qed.

Lemma keeps_addCommand (command : BaseCommand) (group : option GroupRef) (r : Registry) :
  Q (cachedPaths r) -> Q (cachedPaths (addCommand array_sort command group r)).
Proof.
  intros Hr. unfold addCommand. cbn [log Fire cachedPaths].
  set (r1 := foldl _ r (getPaths command)).
  assert (H : Q (cachedPaths r1)).
  { subst r1. revert r Hr. induction (getPaths command) as [|p paths IH]; intros r Hr; [exact Hr|].
    cbn [foldl]. apply IH. cbn. apply Q_cachePath.
    rewrite cachedPaths_validatePath. exact Hr. }
  destruct group; exact H.
Qed.

Lemma keeps_registerGroup_loop (commandGroups : list CommandGroup) (r : Registry) :
  Q (cachedPaths r) -> Q (cachedPaths (registerGroup_loop array_sort commandGroups r)).
Proof.
  revert r. induction commandGroups as [|group rest IH]; intros r Hr; [exact Hr|].
  cbn [registerGroup_loop allocate].
  pose proof (cachedPaths_validatePath (g_path group) false r) as Hv.
  set (r1 := validatePath (g_path group) false r) in *.
  destruct (Nat.ltb 1 (RegistryPath.size (g_path group))).
  - cbn [with_store groups]. destruct (groups r1 !! _) as [parentGroup|].
    + destruct (CommandGroup.hasGroup _ _).
      * apply IH. cbn. rewrite Hv. exact Hr.
      * apply IH. cbn. apply Q_cachePath. rewrite Hv. exact Hr.
    + cbn. rewrite Hv. exact Hr.
  - apply IH. cbn. apply Q_cachePath. rewrite Hv. exact Hr.
Qed.

Lemma keeps_registerGroup (gs : list GroupOptions) (r : Registry) :
  Q (cachedPaths r) -> Q (cachedPaths (registerGroup array_sort gs r)).
Proof.
  apply keeps_registerGroup_loop.
Qed.

Lemma keeps_createCommand (options : CommandOptions) (group : option RegistryPath) :
  preserves (fun r => Q (cachedPaths r)) (createCommand alias_paths options group).
Proof.
  intros r Hr. unfold createCommand.
  destruct group as [g|]; [destruct (groups r !! _)|]; exact Hr.
Qed.

Lemma keeps_registerCommand (options : CommandOptions) (group : option (list string)) :
  preserves (fun r => Q (cachedPaths r)) (registerCommand array_sort alias_paths options group).
Proof.
  unfold registerCommand. apply preserves_bind; [apply keeps_createCommand|].
  intros command. apply preserves_effect. apply keeps_addCommand.
Qed.

Lemma keeps_unregisterCommand (path : RegistryPath) :
  preserves (fun r => Q (cachedPaths r)) (unregisterCommand array_sort path).
Proof.
  intros r Hr. unfold unregisterCommand.
  destruct (getCommand r path) as [command|]; [|exact Hr].
  cbn [log Fire cachedPaths].
  set (r1 := match getGroup r (RegistryPath.parent path) with
             | Some group => _
             | None => r
             end).
  assert (H1 : Q (cachedPaths r1)).
  { subst r1. destruct (getGroup r (RegistryPath.parent path)); exact Hr. }
  clearbody r1. revert r1 H1.
  induction (getPaths command) as [|p paths IH]; intros r1 H1; [exact H1|].
  cbn [foldl]. apply IH. cbn. apply Q_uncachePath. exact H1.
Qed.

Lemma keeps_unregisterGroup (fuel : nat) (path : RegistryPath) :
  preserves (fun r => Q (cachedPaths r)) (unregisterGroup array_sort fuel path).
Proof.
  revert path. induction fuel as [|fuel IH]; intros path r Hr; [exact I|].
  cbn [unregisterGroup].
  destruct (getGroup r path) as [group|]; [|exact Hr].
  set (r1 := match getGroup r (RegistryPath.parent path) with
             | Some parentGroup => _
             | None => r
             end).
  assert (H1 : Q (cachedPaths r1)).
  { subst r1. destruct (getGroup r (RegistryPath.parent path)); exact Hr. }
  clearbody r1.
  refine (preserves_bind (fun r => Q (cachedPaths r)) _ _ _ _ r1 H1).
  - apply preserves_for_each. intros command _. apply keeps_unregisterCommand.
  - intros _. apply preserves_bind.
    + intros r2 H2.
      refine (preserves_for_each (fun r => Q (cachedPaths r)) _ _ _ r2 H2).
      intros childGroup _ r3 H3. apply IH. exact H3.
    + intros _. apply preserves_effect. intros r2 H2. cbn. apply Q_uncachePath. exact H2.
Qed.

Lemma keeps_call (fuel : nat) (c : Call) :
  preserves (fun r => Q (cachedPaths r)) (call array_sort alias_paths fuel c).
Proof.
  destruct c as [ts|gs|options group|command group|path|path]; cbn [call].
  - apply preserves_effect. intros r Hr. rewrite keeps_registerType. exact Hr.
  - apply preserves_effect. apply keeps_registerGroup.
  - apply keeps_registerCommand.
  - apply preserves_effect. apply keeps_addCommand.
  - apply keeps_unregisterCommand.
  - apply keeps_unregisterGroup.
Qed.

Lemma keeps_calls (fuel : nat) (cs : list Call) :
  preserves (fun r => Q (cachedPaths r)) (calls array_sort alias_paths fuel cs).
Proof.
  apply preserves_for_each. intros c _. apply keeps_call.
Qed.

Lemma keeps_registerCommandClass (construct : CommandClass -> M unit)
    (commandClass : CommandClass) :
  preserves (fun r => Q (cachedPaths r)) (construct commandClass) ->
  preserves (fun r => Q (cachedPaths r))
            (registerCommandClass array_sort alias_paths construct commandClass).
Proof.
  intros Hconstruct r Hr. unfold registerCommandClass.
  destruct (cc_register commandClass) as [registerOptions|]; [|exact Hr].
  revert r Hr. apply preserves_bind.
  - destruct (ro_groups registerOptions).
    + apply preserves_effect. apply keeps_registerGroup.
    + apply preserves_ret.
  - intros _. apply preserves_bind; [exact Hconstruct|].
    intros _. apply preserves_for_each. intros property _.
    destruct (cp_command property) as [options|]; [|intros r Hr; exact Hr].
    apply preserves_bind; [apply keeps_createCommand|].
    intros command. apply preserves_effect. apply keeps_addCommand.
Qed.

End KeepsCache.

(** ** What every cache list looks like *)

Lemma calls_cache_ok
    (array_sort : forall A : Type, (A -> A -> bool) -> list A -> list A)
    (alias_paths : RegistryPath -> CommandOptions -> list RegistryPath)
    (Hsort : SortSpec array_sort) (fuel : nat) (cs : list Call) :
  preserves (fun r => cache_ok (cachedPaths r)) (calls array_sort alias_paths fuel cs).
Proof.
  apply keeps_calls.
  - intros path cache_map. apply cachePath_ok. exact Hsort.
  - intros path cache_map. apply uncachePath_ok. exact Hsort.
Qed.

Lemma cache_ok_default (cache_map : gmap string (list RegistryPath)) (key : string) :
  cache_ok cache_map ->
  NoDup (map RegistryPath.toString (default [] (cache_map !! key)))
  /\ StronglySorted (fun a b => by_tail b a = false) (default [] (cache_map !! key))
  /\ Forall (fun val => val <> [] /\ parent_key val = key) (default [] (cache_map !! key)).
Proof.
  intros Hm. destruct (cache_map !! key) as [l|] eqn:E; cbn.
  - destruct (Hm _ _ E) as (_ & Hnd & Hs & Hall). auto.
  - split; [apply NoDup_nil_2|]. split; [constructor|apply Forall_nil_2].
Qed.

(** X1. Whatever calls are made on a registry whose cache lists are well
    formed (the empty registry, for one), what [getChildPaths] and
    [getRootPaths] return is in the order of the last segments and holds no
    two paths with the same canonical string. *)
Theorem child_paths_sorted_without_duplicates
    (array_sort : forall A : Type, (A -> A -> bool) -> list A -> list A)
    (alias_paths : RegistryPath -> CommandOptions -> list RegistryPath)
    (fuel : nat) (cs : list Call) (r0 : Registry) (q : RegistryPath) :
  SortSpec array_sort ->
  cache_ok (cachedPaths r0) ->
  match calls array_sort alias_paths fuel cs r0 with
  | Returned _ r | Thrown _ r =>
    StronglySorted (fun a b => String.ltb (RegistryPath.tail b) (RegistryPath.tail a) = false)
                   (getChildPaths r q)
    /\ NoDup (map RegistryPath.toString (getChildPaths r q))
    /\ StronglySorted (fun a b => String.ltb (RegistryPath.tail b) (RegistryPath.tail a) = false)
                      (getRootPaths r)
    /\ NoDup (map RegistryPath.toString (getRootPaths r))
  | OutOfFuel => True
  end.
Proof.
  intros Hsort H0.
  pose proof (calls_cache_ok array_sort alias_paths Hsort fuel cs r0 H0) as H.
  destruct (calls array_sort alias_paths fuel cs r0) as [[] r|msg r|]; [| |exact I];
    unfold getChildPaths, getRootPaths;
    destruct (cache_ok_default _ (lower (RegistryPath.toString q)) H) as (H1 & H2 & _);
    destruct (cache_ok_default _ ROOT_KEY H) as (H3 & H4 & _); auto.
Qed.

Lemma child_paths_sorted_without_duplicates_witness :
  SortSpec table_sort
  /\ cache_ok (cachedPaths empty_registry)
  /\ match calls table_sort no_aliases 16 (sibling_groups ++ [UnregisterGroup ["a"; "b"]])
             empty_registry with
     | Returned _ r | Thrown _ r =>
       StronglySorted (fun a b => String.ltb (RegistryPath.tail b) (RegistryPath.tail a) = false)
                      (getChildPaths r ["A"])
       /\ NoDup (map RegistryPath.toString (getChildPaths r ["A"]))
       /\ StronglySorted (fun a b => String.ltb (RegistryPath.tail b) (RegistryPath.tail a) = false)
                         (getRootPaths r)
       /\ NoDup (map RegistryPath.toString (getRootPaths r))
     | OutOfFuel => True
     end.
Proof.
  split; [exact table_sort_spec|]. split; [exact cache_ok_empty|].
  exact (child_paths_sorted_without_duplicates table_sort no_aliases 16
           (sibling_groups ++ [UnregisterGroup ["a"; "b"]]) empty_registry ["A"]
           table_sort_spec cache_ok_empty).
Defined.

(** X2. Whatever calls are made, the cache never holds a key with an empty
    list: a key that is present has at least one child. *)
Theorem cache_keys_have_children
    (array_sort : forall A : Type, (A -> A -> bool) -> list A -> list A)
    (alias_paths : RegistryPath -> CommandOptions -> list RegistryPath)
    (fuel : nat) (cs : list Call) (r0 : Registry) :
  SortSpec array_sort ->
  cache_ok (cachedPaths r0) ->
  match calls array_sort alias_paths fuel cs r0 with
  | Returned _ r | Thrown _ r =>
    forall key l, cachedPaths r !! key = Some l -> l <> []
  | OutOfFuel => True
  end.
Proof.
  intros Hsort H0.
  pose proof (calls_cache_ok array_sort alias_paths Hsort fuel cs r0 H0) as H.
  destruct (calls array_sort alias_paths fuel cs r0) as [[] r|msg r|]; [| |exact I];
    intros key l Hl; exact (proj1 (H key l Hl)).
Qed.

Lemma cache_keys_have_children_witness :
  SortSpec table_sort
  /\ cache_ok (cachedPaths empty_registry)
  /\ match calls table_sort no_aliases 16 (sibling_groups ++ [UnregisterGroup ["a"]])
             empty_registry with
     | Returned _ r | Thrown _ r =>
       forall key l, cachedPaths r !! key = Some l -> l <> []
     | OutOfFuel => True
     end.
Proof.
  split; [exact table_sort_spec|]. split; [exact cache_ok_empty|].
  exact (cache_keys_have_children table_sort no_aliases 16
           (sibling_groups ++ [UnregisterGroup ["a"]]) empty_registry
           table_sort_spec cache_ok_empty).
Defined.

(** X3. Whatever calls are made, every path that [getChildPaths q] returns
    has at least one segment and is filed under the key of its own parent:
    the canonical string of its parent is the lowercased canonical string
    of [q] (a path of one segment is filed under the root key). *)
Theorem getChildPaths_returns_children
    (array_sort : forall A : Type, (A -> A -> bool) -> list A -> list A)
    (alias_paths : RegistryPath -> CommandOptions -> list RegistryPath)
    (fuel : nat) (cs : list Call) (r0 : Registry) (q : RegistryPath) :
  SortSpec array_sort ->
  cache_ok (cachedPaths r0) ->
  match calls array_sort alias_paths fuel cs r0 with
  | Returned _ r | Thrown _ r =>
    (forall val, val ∈ getChildPaths r q ->
                 val <> [] /\ parent_key val = lower (RegistryPath.toString q))
    /\ (forall val, val ∈ getRootPaths r -> val <> [] /\ parent_key val = ROOT_KEY)
  | OutOfFuel => True
  end.
Proof.
  intros Hsort H0.
  pose proof (calls_cache_ok array_sort alias_paths Hsort fuel cs r0 H0) as H.
  destruct (calls array_sort alias_paths fuel cs r0) as [[] r|msg r|]; [| |exact I];
    unfold getChildPaths, getRootPaths;
    destruct (cache_ok_default _ (lower (RegistryPath.toString q)) H) as (_ & _ & H1);
    destruct (cache_ok_default _ ROOT_KEY H) as (_ & _ & H2);
    rewrite Forall_forall in H1, H2; auto.
Qed.

Lemma getChildPaths_returns_children_witness :
  SortSpec table_sort
  /\ cache_ok (cachedPaths empty_registry)
  /\ match calls table_sort no_aliases 16 sibling_commands empty_registry with
     | Returned _ r | Thrown _ r =>
       (forall val, val ∈ getChildPaths r ["a"] ->
                    val <> [] /\ parent_key val = lower (RegistryPath.toString ["a"]))
       /\ (forall val, val ∈ getRootPaths r -> val <> [] /\ parent_key val = ROOT_KEY)
     | OutOfFuel => True
     end.
Proof.
  split; [exact table_sort_spec|]. split; [exact cache_ok_empty|].
  exact (getChildPaths_returns_children table_sort no_aliases 16 sibling_commands
           empty_registry ["a"] table_sort_spec cache_ok_empty).
Defined.

(** ** What [cachePath] and [uncachePath] change *)

Section CacheChanges.

Variable array_sort : forall A : Type, (A -> A -> bool) -> list A -> list A.
Hypothesis array_sort_permutation : forall l, array_sort _ by_tail l ≡ₚ l.

Lemma cachePath_loop_keeps (path : RegistryPath) (range : list nat) (key : string)
    (cache_map : gmap string (list RegistryPath)) (k : string) (val : RegistryPath) :
  val ∈ default [] (cache_map !! k) ->
  val ∈ default [] (cachePath_loop array_sort path range key cache_map !! k).
Proof.
  revert key cache_map.
  induction range as [|i range IH]; intros key cache_map Hval; [exact Hval|].
  cbn [cachePath_loop].
  assert (H1 : val ∈ default [] (<[key := default [] (cache_map !! key)]> cache_map !! k)).
  { destruct (decide (key = k)) as [->|Hne].
    - rewrite lookup_insert_eq. exact Hval.
    - rewrite lookup_insert_ne by exact Hne. exact Hval. }
  destruct (existsb _ _); apply IH; [exact H1|].
  destruct (decide (key = k)) as [->|Hne].
  - rewrite lookup_insert_eq in *. cbn [default] in *.
    rewrite array_sort_permutation. apply elem_of_app. left. exact H1.
  - rewrite lookup_insert_ne by exact Hne. exact H1.
Qed.

Lemma cachePath_loop_keeps_listed (path : RegistryPath) (range : list nat) (key : string)
    (cache_map : gmap string (list RegistryPath)) (k : string) (p : RegistryPath) :
  existsb (fun val => RegistryPath.equals val p) (default [] (cache_map !! k)) = true ->
  existsb (fun val => RegistryPath.equals val p)
          (default [] (cachePath_loop array_sort path range key cache_map !! k)) = true.
Proof.
  rewrite !existsb_exists. intros (val & Hin & Heq). exists val. split; [|exact Heq].
  apply list_elem_of_In. apply cachePath_loop_keeps. apply list_elem_of_In. exact Hin.
Qed.

Lemma cachePath_loop_listed (path : RegistryPath) (range1 range2 : list nat) (i : nat)
    (key : string) (cache_map : gmap string (list RegistryPath)) :
  existsb (fun val => RegistryPath.equals val (RegistryPath.slice path 0 i))
          (default [] (cachePath_loop array_sort path (range1 ++ i :: range2) key cache_map
                       !! key_after path range1 key)) = true.
Proof.
  rewrite cachePath_loop_app.
  change (i :: range2) with ([i] ++ range2). rewrite cachePath_loop_app.
  apply cachePath_loop_keeps_listed.
  apply cachePath_loop_last. exact array_sort_permutation.
Qed.

Lemma cachePath_loop_fixed (path : RegistryPath) (range : list nat) (key : string)
    (cache_map : gmap string (list RegistryPath)) :
  (forall range1 i range2, range = range1 ++ i :: range2 ->
     existsb (fun val => RegistryPath.equals val (RegistryPath.slice path 0 i))
             (default [] (cache_map !! key_after path range1 key)) = true) ->
  cachePath_loop array_sort path range key cache_map = cache_map.
Proof.
  revert key. induction range as [|i range IH]; intros key H; [reflexivity|].
  cbn [cachePath_loop].
  pose proof (H [] i range eq_refl) as H0. unfold key_after in H0. cbn [last] in H0.
  rewrite H0.
  destruct (cache_map !! key) as [l|] eqn:E; [|discriminate].
  cbn [default]. rewrite insert_id by exact E.
  apply IH. intros range1 j range2 ->.
  rewrite <- (key_after_cons path i range1 key). apply (H (i :: range1) j range2). reflexivity.
Qed.

(** X4. [cachePath] never takes anything out of the cache: a path listed
    under any key before is still listed under it afterwards. *)
Theorem cachePath_keeps_entries (path : RegistryPath)
    (cache_map : gmap string (list RegistryPath)) (key : string) (val : RegistryPath) :
  val ∈ default [] (cache_map !! key) ->
  val ∈ default [] (cachePath array_sort path cache_map !! key).
Proof.
  apply cachePath_loop_keeps.
Qed.

(** X5. [cachePath] is idempotent: caching a path that has just been cached
    changes nothing, so registering the same path again lists nothing
    twice. *)
Theorem cachePath_idempotent (path : RegistryPath)
    (cache_map : gmap string (list RegistryPath)) :
  cachePath array_sort path (cachePath array_sort path cache_map) =
  cachePath array_sort path cache_map.
Proof.
  unfold cachePath at 1. apply cachePath_loop_fixed.
  intros range1 i range2 Hrange. unfold cachePath. rewrite Hrange.
  apply cachePath_loop_listed.
Qed.

Lemma uncachePath_loop_only_removes (path : RegistryPath) (range : list nat) (key : string)
    (cache_map : gmap string (list RegistryPath)) (k : string) (val : RegistryPath) :
  val ∈ default [] (uncachePath_loop array_sort path range key cache_map !! k) ->
  val ∈ default [] (cache_map !! k).
Proof.
  revert key cache_map.
  induction range as [|i range IH]; intros key cache_map Hval; [exact Hval|].
  cbn [uncachePath_loop] in Hval.
  destruct (cache_map !! key) as [cache|] eqn:E; [|exact Hval].
  apply IH in Hval.
  destruct (decide (key = k)) as [->|Hne].
  - rewrite E. cbn [default].
    destruct (array_sort _ by_tail _) as [|x l] eqn:Es.
    + rewrite lookup_delete_eq in Hval. inversion Hval.
    + rewrite lookup_insert_eq in Hval. cbn [default] in Hval.
      rewrite <- Es, array_sort_permutation in Hval.
      apply list_elem_of_In, filter_In in Hval. apply list_elem_of_In. tauto.
  - destruct (array_sort _ by_tail _) as [|x l].
    + rewrite lookup_delete_ne in Hval by exact Hne. exact Hval.
    + rewrite lookup_insert_ne in Hval by exact Hne. exact Hval.
Qed.

(** X6. [uncachePath] never puts anything into the cache: a path listed
    under any key afterwards was listed under it before. *)
Theorem uncachePath_only_removes (path : RegistryPath)
    (cache_map : gmap string (list RegistryPath)) (key : string) (val : RegistryPath) :
  val ∈ default [] (uncachePath array_sort path cache_map !! key) ->
  val ∈ default [] (cache_map !! key).
Proof.
  apply uncachePath_loop_only_removes.
Qed.

Lemma uncachePath_unlists_root (part : string) (rest : list string)
    (cache_map : gmap string (list RegistryPath)) (val : RegistryPath) :
  val ∈ default [] (uncachePath array_sort (part :: rest) cache_map !! ROOT_KEY) ->
  RegistryPath.equals val [part] = false.
Proof.
  intros Hval. unfold uncachePath in Hval.
  cbn [RegistryPath.size length seq uncachePath_loop] in Hval.
  destruct (cache_map !! ROOT_KEY) as [cache|] eqn:E.
  - apply uncachePath_loop_only_removes in Hval.
    change (RegistryPath.slice (part :: rest) 0 0) with [part] in Hval.
    destruct (array_sort _ by_tail _) as [|x l] eqn:Es.
    + rewrite lookup_delete_eq in Hval. inversion Hval.
    + rewrite lookup_insert_eq in Hval. cbn [default] in Hval.
      rewrite <- Es, array_sort_permutation in Hval.
      apply list_elem_of_In, filter_In in Hval. destruct Hval as [_ Hval].
      apply negb_true_iff in Hval. exact Hval.
  - rewrite E in Hval. inversion Hval.
Qed.

Lemma unregister_paths_cache (paths : list RegistryPath) (r : Registry) :
  cachedPaths (foldl (fun r path =>
                        with_cachedPaths (uncachePath array_sort path)
                          (with_commands (delete (RegistryPath.toString path)) r)) r paths)
  = foldl (fun m path => uncachePath array_sort path m) (cachedPaths r) paths.
Proof.
  revert r. induction paths as [|p paths IH]; intros r; [reflexivity|].
  cbn [foldl]. rewrite IH. reflexivity.
Qed.

Lemma uncache_all_only_removes (paths : list RegistryPath)
    (cache_map : gmap string (list RegistryPath)) (key : string) (val : RegistryPath) :
  val ∈ default [] (foldl (fun m path => uncachePath array_sort path m) cache_map paths !! key) ->
  val ∈ default [] (cache_map !! key).
Proof.
  revert cache_map. induction paths as [|p paths IH]; intros cache_map H; [exact H|].
  cbn [foldl] in H. apply IH in H. exact (uncachePath_loop_only_removes _ _ _ _ _ _ H).
Qed.

Lemma uncache_all_unlists_root (paths : list RegistryPath) (part : string) (rest : list string)
    (cache_map : gmap string (list RegistryPath)) (val : RegistryPath) :
  (part :: rest) ∈ paths ->
  val ∈ default [] (foldl (fun m path => uncachePath array_sort path m) cache_map paths
                    !! ROOT_KEY) ->
  RegistryPath.equals val [part] = false.
Proof.
  revert cache_map. induction paths as [|p paths IH]; intros cache_map Hin H; [inversion Hin|].
  cbn [foldl] in H. apply elem_of_cons in Hin. destruct Hin as [<-|Hin].
  - apply uncache_all_only_removes in H. exact (uncachePath_unlists_root _ _ _ _ H).
  - exact (IH _ Hin H).
Qed.

(** X7. A successful [unregisterCommand] takes the first segment of every
    path the command owns out of the root list: [getRootPaths] no longer
    returns it, whether or not a group or another command under that
    segment is still registered. *)
Theorem unregisterCommand_unlists_root_segment (path : RegistryPath) (r r' : Registry)
    (command : BaseCommand) (part : string) (rest : list string) (val : RegistryPath) :
  getCommand r path = Some command ->
  (part :: rest) ∈ getPaths command ->
  unregisterCommand array_sort path r = Returned tt r' ->
  val ∈ getRootPaths r' ->
  RegistryPath.equals val [part] = false.
Proof.
  intros Hc Hin Hrun Hval. unfold unregisterCommand in Hrun. rewrite Hc in Hrun.
  injection Hrun as <-. unfold getRootPaths in Hval. cbn [log Fire cachedPaths] in Hval.
  rewrite unregister_paths_cache in Hval.
  exact (uncache_all_unlists_root _ _ _ _ _ Hin Hval).
Qed.

End CacheChanges.

Lemma table_sort_by_tail_permutation (l : list RegistryPath) : table_sort _ by_tail l ≡ₚ l.
Proof.
  apply (sort_permutation _ table_sort_spec).
Qed.

Lemma cachePath_keeps_entries_witness :
  (forall l, table_sort _ by_tail l ≡ₚ l)
  /\ ["a"] ∈ default [] (({[ROOT_KEY := [["a"]]]} : gmap string (list RegistryPath)) !! ROOT_KEY)
  /\ ["a"] ∈ default [] (cachePath table_sort ["b"; "c"] {[ROOT_KEY := [["a"]]]} !! ROOT_KEY).
Proof.
  assert (H : ["a"] ∈ default [] (({[ROOT_KEY := [["a"]]]} : gmap string (list RegistryPath))
                                  !! ROOT_KEY)).
  { rewrite lookup_singleton_eq. left. }
  split; [exact table_sort_by_tail_permutation|]. split; [exact H|].
  exact (cachePath_keeps_entries table_sort table_sort_by_tail_permutation
           ["b"; "c"] _ _ _ H).
Defined.

Lemma cachePath_idempotent_witness :
  (forall l, table_sort _ by_tail l ≡ₚ l)
  /\ cachePath table_sort ["a"; "b"] (cachePath table_sort ["a"; "b"] {[ROOT_KEY := [["c"]]]})
     = cachePath table_sort ["a"; "b"] {[ROOT_KEY := [["c"]]]}.
Proof.
  split; [exact table_sort_by_tail_permutation|].
  exact (cachePath_idempotent table_sort table_sort_by_tail_permutation ["a"; "b"]
           {[ROOT_KEY := [["c"]]]}).
Defined.

Lemma uncachePath_only_removes_witness :
  (forall l, table_sort _ by_tail l ≡ₚ l)
  /\ ["b"] ∈ default [] (uncachePath table_sort ["a"]
                           {[ROOT_KEY := [["a"]; ["b"]]]} !! ROOT_KEY)
  /\ ["b"] ∈ default [] (({[ROOT_KEY := [["a"]; ["b"]]]} : gmap string (list RegistryPath))
                         !! ROOT_KEY).
Proof.
  assert (H : ["b"] ∈ default [] (uncachePath table_sort ["a"]
                                    {[ROOT_KEY := [["a"]; ["b"]]]} !! ROOT_KEY)).
  { vm_compute. left. }
  split; [exact table_sort_by_tail_permutation|]. split; [exact H|].
  exact (uncachePath_only_removes table_sort table_sort_by_tail_permutation ["a"] _ _ _ H).
Defined.

(** Group [a] with commands [a/x] and [a/y]: unregistering [a/x] takes [a]
    out of the root list. *)
Lemma unregisterCommand_unlists_root_segment_witness :
  let r := registry_after (program sibling_commands) in
  let command := {| c_id := 1; c_path := ["a"; "x"]; c_aliases := [];
                    c_options := command_def "x" |} in
  let r' := registry_after (unregisterCommand table_sort ["a"; "x"] r) in
  (forall l, table_sort _ by_tail l ≡ₚ l)
  /\ getCommand r ["a"; "x"] = Some command
  /\ ["a"; "x"] ∈ getPaths command
  /\ unregisterCommand table_sort ["a"; "x"] r = Returned tt r'
  /\ forall val, val ∈ getRootPaths r' -> RegistryPath.equals val ["a"] = false.
Proof.
  intros r command r'.
  assert (Hc : getCommand r ["a"; "x"] = Some command) by (vm_compute; reflexivity).
  assert (Hin : ["a"; "x"] ∈ getPaths command) by left.
  assert (Hrun : unregisterCommand table_sort ["a"; "x"] r = Returned tt r')
    by (vm_compute; reflexivity).
  split; [exact table_sort_by_tail_permutation|].
  split; [exact Hc|]. split; [exact Hin|]. split; [exact Hrun|].
  intros val.
  exact (unregisterCommand_unlists_root_segment table_sort table_sort_by_tail_permutation
           ["a"; "x"] r r' command "a" ["x"] val Hc Hin Hrun).
Defined.

(** ** Validation only reports *)

(** X8. [validatePath] never changes the registry beyond the log: it
    returns the registry untouched, or with one more [Error] line; and it
    stays silent exactly when every segment is made of letters, digits and
    underscores and the canonical string is the key of no command and of no
    group. *)
Theorem validatePath_only_reports (path : RegistryPath) (isCommand : bool) (r : Registry) :
  (validatePath path isCommand r = r
   \/ exists msg, validatePath path isCommand r = log Error msg r)
  /\ (validatePath path isCommand r = r <->
      forallb matches_word path = true
      /\ getCommand r path = None /\ getGroup r path = None).
Proof.
  assert (Hlog : forall msg, log Error msg r <> r).
  { intros msg H. apply (f_equal (fun r => length (logged r))) in H.
    cbn in H. rewrite length_app in H. cbn in H. lia. }
  unfold validatePath, getCommand, getGroup, RegistryPath.iter.
  destruct (forallb matches_word path); cbn [negb].
  - destruct (commands r !! RegistryPath.toString path) as [c|] eqn:Ec.
    + rewrite bool_decide_eq_true_2 by eauto.
      destruct isCommand; cbn [andb];
        (split; [right; eauto|]; split; [intros H; destruct (Hlog _ H)|intros (_ & [=] & _)]).
    + rewrite bool_decide_eq_false_2 by (intros [? [=]]). cbn [andb].
      destruct (groups r !! RegistryPath.toString path) as [g|] eqn:Eg.
      * rewrite bool_decide_eq_true_2 by eauto.
        destruct isCommand; cbn [andb];
          (split; [right; eauto|]; split; [intros H; destruct (Hlog _ H)|intros (_ & _ & [=])]).
      * rewrite bool_decide_eq_false_2 by (intros [? [=]]). cbn [andb].
        split; [left; reflexivity|]. split; auto.
  - split; [right; eauto|]. split; [intros H; destruct (Hlog _ H)|intros ([=] & _)].
Qed.

(** ** Registering and unregistering a command *)



Section RegisterCommand.

Variable array_sort : forall A : Type, (A -> A -> bool) -> list A -> list A.
Variable alias_paths : RegistryPath -> CommandOptions -> list RegistryPath.

Lemma add_paths_rest (command : BaseCommand) (paths : list RegistryPath) (r : Registry) :
  let r' := foldl (fun r path =>
                     with_cachedPaths (cachePath array_sort path)
                       (with_commands (insert (RegistryPath.toString path) command)
                          (validatePath path true r))) r paths in
  fired r' = fired r /\ groups r' = groups r /\ types r' = types r /\ store r' = store r
  /\ allocated r' = allocated r.
Proof.
  revert r. induction paths as [|p paths IH]; intros r; [cbn; auto|].
  cbn [foldl]. cbn zeta in IH |- *.
  destruct (IH (with_cachedPaths (cachePath array_sort p)
                  (with_commands (insert (RegistryPath.toString p) command)
                     (validatePath p true r)))) as (H1 & H2 & H3 & H4 & H5).
  rewrite H1, H2, H3, H4, H5. cbn.
  destruct (validatePath_cases p true r) as [->|[msg ->]]; cbn; auto.
Qed.





End RegisterCommand.

(** ** The keys of [groups] are in lower case *)

Section GroupKeys.

Variable array_sort : forall A : Type, (A -> A -> bool) -> list A -> list A.
Variable alias_paths : RegistryPath -> CommandOptions -> list RegistryPath.
Hypothesis Hsort : SortSpec array_sort.

Lemma lowercase_group_keys_registerGroup_loop (commandGroups : list CommandGroup) (r : Registry) :
  Forall (fun g => map lower (g_path g) = g_path g) commandGroups ->
  lowercase_group_keys r ->
  lowercase_group_keys (registerGroup_loop array_sort commandGroups r).
Proof.
  intros Hall. revert r.
  induction Hall as [|group rest Hgroup Hrest IH]; intros r Hr; [exact Hr|].
  cbn [registerGroup_loop allocate].
  pose proof (groups_validatePath (g_path group) false r) as Hv.
  set (r1 := validatePath (g_path group) false r) in *.
  assert (Hins : forall m : gmap string GroupRef,
             (forall k ref, m !! k = Some ref -> lower k = k) ->
             forall ref0 k ref,
               <[RegistryPath.toString (g_path group) := ref0]> m !! k = Some ref ->
               lower k = k).
  { intros m Hm ref0 k ref.
    destruct (decide (RegistryPath.toString (g_path group) = k)) as [<-|Hne].
    - intros _. rewrite lower_toString, Hgroup. reflexivity.
    - rewrite lookup_insert_ne by exact Hne. apply Hm. }
  destruct (Nat.ltb 1 (RegistryPath.size (g_path group))).
  - cbn [with_store groups]. destruct (groups r1 !! _) as [parentGroup|].
    + destruct (CommandGroup.hasGroup _ _).
      * apply IH. intros k ref. cbn. rewrite Hv. apply Hr.
      * apply IH. intros k ref. cbn. apply Hins. rewrite Hv. exact Hr.
    + intros k ref. cbn. rewrite Hv. apply Hr.
  - apply IH. intros k ref. cbn. apply Hins. rewrite Hv. exact Hr.
Qed.

Lemma lowercase_group_keys_registerGroup (gs : list GroupOptions) (r : Registry) :
  lowercase_group_keys r -> lowercase_group_keys (registerGroup array_sort gs r).
Proof.
  intros Hr. unfold registerGroup. apply lowercase_group_keys_registerGroup_loop; [|exact Hr].
  rewrite (sort_permutation _ Hsort). apply Forall_forall. intros g Hg.
  apply list_elem_of_In, in_map_iff in Hg. destruct Hg as (o & <- & _).
  apply new_group_lowercase.
Qed.

Lemma lowercase_group_keys_unregisterCommand (path : RegistryPath) :
  preserves lowercase_group_keys (unregisterCommand array_sort path).
Proof.
  intros r Hr. unfold unregisterCommand.
  destruct (getCommand r path) as [command|]; [|exact Hr].
  set (r1 := match getGroup r (RegistryPath.parent path) with
             | Some group => _
             | None => r
             end).
  assert (H1 : groups r1 = groups r).
  { subst r1. destruct (getGroup r (RegistryPath.parent path)); reflexivity. }
  destruct (unregister_paths_rest array_sort (getPaths command) r1) as (_ & Hg & _).
  cbn zeta in Hg. intros k ref. cbn [log Fire groups]. rewrite Hg, H1. apply Hr.
Qed.

Lemma lowercase_group_keys_unregisterGroup (fuel : nat) (path : RegistryPath) :
  preserves lowercase_group_keys (unregisterGroup array_sort fuel path).
Proof.
  revert path. induction fuel as [|fuel IH]; intros path r Hr; [exact I|].
  cbn [unregisterGroup].
  destruct (getGroup r path) as [group|]; [|exact Hr].
  set (r1 := match getGroup r (RegistryPath.parent path) with
             | Some parentGroup => _
             | None => r
             end).
  assert (H1 : lowercase_group_keys r1).
  { subst r1. destruct (getGroup r (RegistryPath.parent path)); exact Hr. }
  clearbody r1.
  refine (preserves_bind lowercase_group_keys _ _ _ _ r1 H1).
  - apply preserves_for_each. intros command _. apply lowercase_group_keys_unregisterCommand.
  - intros _. apply preserves_bind.
    + intros r2 H2.
      refine (preserves_for_each lowercase_group_keys _ _ _ r2 H2).
      intros childGroup _ r3 H3. apply IH. exact H3.
    + intros _. apply preserves_effect. intros r2 H2 k ref. cbn.
      intros H. apply lookup_delete_Some in H. apply (H2 k ref). tauto.
Qed.

Lemma lowercase_group_keys_calls (fuel : nat) (cs : list Call) :
  preserves lowercase_group_keys (calls array_sort alias_paths fuel cs).
Proof.
  apply preserves_for_each. intros c _.
  destruct c as [ts|gs|options group|command group|path|path]; cbn [call].
  - apply preserves_effect. intros r Hr k ref. unfold registerType.
    assert (H : forall r, groups (foldl (fun r options =>
                  log Debug ("Registered type: " +:+ at_name options)
                    (with_types (insert (at_name options) options) r)) r ts) = groups r).
    { induction ts as [|t ts IH]; intros r0; [reflexivity|]. cbn [foldl]. rewrite IH. reflexivity. }
    rewrite H. apply Hr.
  - apply preserves_effect. apply lowercase_group_keys_registerGroup.
  - unfold registerCommand. apply preserves_bind.
    + intros r Hr. unfold createCommand.
      destruct group as [g|]; [destruct (groups r !! _)|]; exact Hr.
    + intros command. apply preserves_effect. intros r Hr k ref.
      unfold addCommand. cbn [log Fire groups].
      destruct (add_paths_rest array_sort command (getPaths command) r) as (_ & Hg & _).
      cbn zeta in Hg. rewrite Hg. apply Hr.
  - apply preserves_effect. intros r Hr k ref.
    unfold addCommand. cbn [log Fire groups].
    destruct (add_paths_rest array_sort command (getPaths command) r) as (_ & Hg & _).
    cbn zeta in Hg. destruct group; cbn [with_store groups]; rewrite Hg; apply Hr.
  - apply lowercase_group_keys_unregisterCommand.
  - apply lowercase_group_keys_unregisterGroup.
Qed.

(** X11. [registerCommand] does not lowercase the group path it is given,
    while every group is registered under a lowercased key: in a registry
    built by any calls from the empty one, [registerCommand] with a group
    path that has an upper-case letter halts ("Cannot assign group ...")
    and leaves the registry as it was. *)
Theorem registerCommand_group_is_case_sensitive (fuel : nat) (cs : list Call)
    (options : CommandOptions) (group : list string) :
  lower (RegistryPath.toString group) <> RegistryPath.toString group ->
  match calls array_sort alias_paths fuel cs empty_registry with
  | Returned _ r | Thrown _ r =>
    exists msg, registerCommand array_sort alias_paths options (Some group) r = Thrown msg r
  | OutOfFuel => True
  end.
Proof.
  intros Hcase.
  assert (H0 : lowercase_group_keys empty_registry).
  { intros k ref H. cbn in H. rewrite lookup_empty in H. discriminate. }
  pose proof (lowercase_group_keys_calls fuel cs empty_registry H0) as H.
  assert (Hhalt : forall r, lowercase_group_keys r ->
            exists msg, registerCommand array_sort alias_paths options (Some group) r
                        = Thrown msg r).
  { intros r Hr. unfold registerCommand, bind, createCommand.
    destruct (groups r !! RegistryPath.toString group) as [ref|] eqn:E.
    - destruct Hcase. exact (Hr _ _ E).
    - eexists. reflexivity. }
  destruct (calls array_sort alias_paths fuel cs empty_registry) as [[] r|msg r|];
    [apply Hhalt; exact H|apply Hhalt; exact H|exact I].
Qed.

End GroupKeys.

(** The group is registered from the definition [Admin]; asking for group
    [Admin] when registering a command halts. *)
Lemma registerCommand_group_is_case_sensitive_witness :
  SortSpec table_sort
  /\ lower (RegistryPath.toString ["Admin"]) <> RegistryPath.toString ["Admin"]
  /\ match calls table_sort no_aliases 16 [RegisterGroup [group_def "Admin" None]]
             empty_registry with
     | Returned _ r | Thrown _ r =>
       exists msg, registerCommand table_sort no_aliases (command_def "kick") (Some ["Admin"]) r
                   = Thrown msg r
     | OutOfFuel => True
     end.
Proof.
  assert (H : lower (RegistryPath.toString ["Admin"]) <> RegistryPath.toString ["Admin"])
    by (vm_compute; discriminate).
  split; [exact table_sort_spec|]. split; [exact H|].
  exact (registerCommand_group_is_case_sensitive table_sort no_aliases table_sort_spec 16
           [RegisterGroup [group_def "Admin" None]] (command_def "kick") ["Admin"] H).
Defined.

(** ** Registering a decorated class *)

Section RegisterCommandClass.

Variable array_sort : forall A : Type, (A -> A -> bool) -> list A -> list A.
Variable alias_paths : RegistryPath -> CommandOptions -> list RegistryPath.
Variable construct : CommandClass -> M unit.




End RegisterCommandClass.


(** ** Unregistering a group *)

Lemma only_unregistered_fired_refl (r : Registry) : only_unregistered_fired r r.
Proof.
  exists []. rewrite app_nil_r. auto.
Qed.

Lemma only_unregistered_fired_trans (r1 r2 r3 : Registry) :
  only_unregistered_fired r1 r2 -> only_unregistered_fired r2 r3 ->
  only_unregistered_fired r1 r3.
Proof.
  intros (e1 & H1 & F1) (e2 & H2 & F2). exists (e1 ++ e2).
  rewrite H2, H1, app_assoc, forallb_app, F1, F2. auto.
Qed.

Lemma for_each_only_unregistered {A} (xs : list A) (body : A -> M unit) (r r' : Registry) :
  (forall x r r', body x r = Returned tt r' -> only_unregistered_fired r r') ->
  for_each xs body r = Returned tt r' -> only_unregistered_fired r r'.
Proof.
  intros Hbody. revert r.
  induction xs as [|x xs IH]; intros r Hrun.
  - injection Hrun as <-. apply only_unregistered_fired_refl.
  - cbn [for_each] in Hrun. unfold bind in Hrun.
    destruct (body x r) as [[] r1|msg r1|] eqn:E; try discriminate.
    eapply only_unregistered_fired_trans; [exact (Hbody _ _ _ E)|exact (IH _ Hrun)].
Qed.

Lemma deref_update (r : Registry) (g ref : GroupRef) (f : CommandGroup -> CommandGroup) :
  (forall o, g_path (f o) = g_path o) ->
  g_path (deref (with_store (<[g := f (deref r g)]>) r) ref) = g_path (deref r ref).
Proof.
  intros Hf. unfold deref at 1. cbn [with_store store].
  destruct (decide (g = ref)) as [<-|Hne].
  - rewrite lookup_insert_eq. cbn [default]. apply Hf.
  - rewrite lookup_insert_ne by exact Hne. reflexivity.
Qed.

Section UnregisterGroup.

Variable array_sort : forall A : Type, (A -> A -> bool) -> list A -> list A.

Lemma unregisterCommand_fired (path : RegistryPath) (r r' : Registry) :
  unregisterCommand array_sort path r = Returned tt r' -> only_unregistered_fired r r'.
Proof.
  unfold unregisterCommand. destruct (getCommand r path) as [command|]; [|discriminate].
  set (r1 := match getGroup r (RegistryPath.parent path) with
             | Some group => _
             | None => r
             end).
  assert (H1 : fired r1 = fired r).
  { subst r1. destruct (getGroup r (RegistryPath.parent path)); reflexivity. }
  intros [= <-]. exists [commandUnregistered command]. split; [|reflexivity].
  cbn [log Fire fired].
  destruct (unregister_paths_rest array_sort (getPaths command) r1) as (Hf & _).
  cbn zeta in Hf. rewrite <- H1, <- Hf. reflexivity.
Qed.

Lemma unregisterCommand_group_paths (paths : GroupRef -> RegistryPath) (path : RegistryPath) :
  preserves (group_paths_are paths) (unregisterCommand array_sort path).
Proof.
  intros r Hr. unfold unregisterCommand.
  destruct (getCommand r path) as [command|]; [|exact Hr].
  set (r1 := match getGroup r (RegistryPath.parent path) with
             | Some group => _
             | None => r
             end).
  assert (H1 : group_paths_are paths r1).
  { subst r1. destruct (getGroup r (RegistryPath.parent path)) as [g|]; [|exact Hr].
    intros ref. rewrite deref_update by reflexivity. apply Hr. }
  destruct (unregister_paths_rest array_sort (getPaths command) r1) as (_ & _ & _ & Hs).
  cbn zeta in Hs. intros ref. unfold deref. cbn [log Fire store]. rewrite Hs. apply H1.
Qed.

Lemma unregisterGroup_group_paths (paths : GroupRef -> RegistryPath) (fuel : nat)
    (path : RegistryPath) :
  preserves (group_paths_are paths) (unregisterGroup array_sort fuel path).
Proof.
  revert path. induction fuel as [|fuel IH]; intros path r Hr; [exact I|].
  cbn [unregisterGroup].
  destruct (getGroup r path) as [group|]; [|exact Hr].
  set (r1 := match getGroup r (RegistryPath.parent path) with
             | Some parentGroup => _
             | None => r
             end).
  assert (H1 : group_paths_are paths r1).
  { subst r1. destruct (getGroup r (RegistryPath.parent path)) as [g|]; [|exact Hr].
    intros ref. rewrite deref_update by reflexivity. apply Hr. }
  clearbody r1.
  refine (preserves_bind (group_paths_are paths) _ _ _ _ r1 H1).
  - apply preserves_for_each. intros command _. apply unregisterCommand_group_paths.
  - intros _. apply preserves_bind.
    + intros r2 H2.
      refine (preserves_for_each (group_paths_are paths) _ _ _ r2 H2).
      intros childGroup _ r3 H3. apply IH. exact H3.
    + intros _. apply preserves_effect. intros r2 H2 ref. exact (H2 ref).
Qed.

(** One level of [unregisterGroup], spelled out. *)
Lemma unregisterGroup_returned (fuel : nat) (path : RegistryPath) (r r' : Registry) :
  unregisterGroup array_sort (S fuel) path r = Returned tt r' ->
  exists group r1 r2 r3,
    getGroup r path = Some group
    /\ fired r1 = fired r
    /\ (forall ref, g_path (deref r1 ref) = g_path (deref r ref))
    /\ for_each (CommandGroup.getCommands (deref r1 group))
         (fun command => unregisterCommand array_sort (getPath command)) r1 = Returned tt r2
    /\ for_each (CommandGroup.getGroups (deref r2 group))
         (fun childGroup r =>
            unregisterGroup array_sort fuel (g_path (deref r childGroup)) r) r2 = Returned tt r3
    /\ groups r' = delete (RegistryPath.toString path) (groups r3)
    /\ fired r' = fired r3 ++ [groupUnregistered (g_path (deref r3 group))].
Proof.
  cbn [unregisterGroup]. destruct (getGroup r path) as [group|]; [|discriminate].
  set (r1 := match getGroup r (RegistryPath.parent path) with
             | Some parentGroup => _
             | None => r
             end).
  assert (H1 : fired r1 = fired r /\ forall ref, g_path (deref r1 ref) = g_path (deref r ref)).
  { subst r1. destruct (getGroup r (RegistryPath.parent path)) as [g|]; [|auto].
    split; [reflexivity|]. intros ref. apply deref_update. reflexivity. }
  clearbody r1. unfold bind, effect.
  destruct (for_each (CommandGroup.getCommands (deref r1 group)) _ r1) as [[] r2|?|] eqn:E2;
    try discriminate.
  destruct (for_each (CommandGroup.getGroups (deref r2 group)) _ r2) as [[] r3|?|] eqn:E3;
    try discriminate.
  intros [= <-]. exists group, r1, r2, r3.
  destruct H1 as [H1 H1']. repeat split; try assumption; reflexivity.
Qed.

Lemma unregisterGroup_fired (fuel : nat) (path : RegistryPath) (r r' : Registry) :
  unregisterGroup array_sort fuel path r = Returned tt r' -> only_unregistered_fired r r'.
Proof.
  revert path r r'. induction fuel as [|fuel IH]; intros path r r' Hrun; [discriminate|].
  destruct (unregisterGroup_returned _ _ _ _ Hrun)
    as (group & r1 & r2 & r3 & _ & Hf1 & _ & H2 & H3 & _ & Hf).
  apply for_each_only_unregistered in H2; [|intros x ra rb; apply unregisterCommand_fired].
  apply for_each_only_unregistered in H3; [|intros x ra rb; apply IH].
  destruct H2 as (e2 & H2 & F2). destruct H3 as (e3 & H3 & F3).
  exists (e2 ++ e3 ++ [groupUnregistered (g_path (deref r3 group))]).
  rewrite Hf, H3, H2, Hf1, !forallb_app, F2, F3, <- !app_assoc. auto.
Qed.

(** X13. When [unregisterGroup] returns, the group was registered and is
    gone from [groups]; between the call and its return only
    "unregistered" events were fired, and the last of them is the group's
    own [groupUnregistered]: whatever was fired for its child commands and
    child groups came before it. *)
Theorem unregisterGroup_fires_own_event_last (fuel : nat) (path : RegistryPath)
    (r r' : Registry) :
  unregisterGroup array_sort fuel path r = Returned tt r' ->
  exists group events,
    getGroup r path = Some group
    /\ getGroup r' path = None
    /\ fired r' = fired r ++ events ++ [groupUnregistered (g_path (deref r group))]
    /\ forallb is_unregistered events = true.
Proof.
  destruct fuel as [|fuel]; [discriminate|]. intros Hrun.
  destruct (unregisterGroup_returned _ _ _ _ Hrun)
    as (group & r1 & r2 & r3 & Hg & Hf1 & Hp1 & H2 & H3 & Hgr & Hf).
  assert (Hp3 : g_path (deref r3 group) = g_path (deref r group)).
  { pose proof (preserves_for_each (group_paths_are (fun ref => g_path (deref r ref)))
                  (CommandGroup.getCommands (deref r1 group))
                  (fun command => unregisterCommand array_sort (getPath command))
                  (fun command _ => unregisterCommand_group_paths _ (getPath command))
                  r1 Hp1) as P2.
    rewrite H2 in P2.
    pose proof (preserves_for_each (group_paths_are (fun ref => g_path (deref r ref)))
                  (CommandGroup.getGroups (deref r2 group))
                  (fun childGroup r =>
                     unregisterGroup array_sort fuel (g_path (deref r childGroup)) r)
                  (fun childGroup _ ra Ha =>
                     unregisterGroup_group_paths _ fuel _ ra Ha)
                  r2 P2) as P3.
    rewrite H3 in P3. exact (P3 group). }
  apply for_each_only_unregistered in H2; [|intros x ra rb; apply unregisterCommand_fired].
  apply for_each_only_unregistered in H3; [|intros x ra rb; apply unregisterGroup_fired].
  destruct H2 as (e2 & H2 & F2). destruct H3 as (e3 & H3 & F3).
  exists group, (e2 ++ e3). split; [exact Hg|]. split.
  - unfold getGroup. rewrite Hgr. apply lookup_delete_eq.
  - rewrite Hf, H3, H2, Hf1, Hp3, forallb_app, F2, F3, <- !app_assoc. auto.
Qed.

(** X14. A registered group with no child group and no child command is
    unregistered in one step: the call returns, the group leaves [groups],
    [commands] is untouched and exactly one event, its
    [groupUnregistered], is fired. *)
Theorem unregisterGroup_leaf (fuel : nat) (path : RegistryPath) (r : Registry)
    (group : GroupRef) :
  getGroup r path = Some group ->
  g_groups (deref r group) = [] ->
  g_commands (deref r group) = [] ->
  exists r',
    unregisterGroup array_sort (S fuel) path r = Returned tt r'
    /\ groups r' = delete (RegistryPath.toString path) (groups r)
    /\ commands r' = commands r
    /\ fired r' = fired r ++ [groupUnregistered (g_path (deref r group))].
Proof.
  intros Hg Hgs Hcs. cbn [unregisterGroup]. rewrite Hg.
  set (r1 := match getGroup r (RegistryPath.parent path) with
             | Some parentGroup => _
             | None => r
             end).
  assert (H1 : groups r1 = groups r /\ commands r1 = commands r /\ fired r1 = fired r
               /\ g_path (deref r1 group) = g_path (deref r group)
               /\ g_groups (deref r1 group) = [] /\ g_commands (deref r1 group) = []).
  { subst r1. destruct (getGroup r (RegistryPath.parent path)) as [parentGroup|]; [|auto 10].
    repeat split; try reflexivity.
    - apply deref_update. reflexivity.
    - unfold deref at 1. cbn [with_store store].
      destruct (decide (parentGroup = group)) as [->|Hne].
      + rewrite lookup_insert_eq. cbn. rewrite Hgs. reflexivity.
      + rewrite lookup_insert_ne by exact Hne. exact Hgs.
    - unfold deref at 1. cbn [with_store store].
      destruct (decide (parentGroup = group)) as [->|Hne].
      + rewrite lookup_insert_eq. cbn. exact Hcs.
      + rewrite lookup_insert_ne by exact Hne. exact Hcs. }
  clearbody r1. destruct H1 as (Hr1g & Hr1c & Hr1f & Hp & Hgs1 & Hcs1).
  unfold bind, effect, CommandGroup.getCommands, CommandGroup.getGroups.
  rewrite Hcs1. cbn [for_each ret]. rewrite Hgs1. cbn [map for_each ret].
  eexists. split; [reflexivity|]. cbn. rewrite Hr1g, Hr1c, Hr1f.
  repeat split. f_equal. f_equal. f_equal. exact Hp.
Qed.

End UnregisterGroup.

(** ** Loading modules *)

Lemma for_each_halts {A} (xs : list A) (body : A -> M unit) (r : Registry) :
  match for_each xs body r with
  | Returned _ _ => True
  | o => exists x r1, x ∈ xs /\ body x r1 = o
  end.
Proof.
  revert r. induction xs as [|x xs IH]; intros r; [exact I|].
  cbn [for_each]. unfold bind.
  destruct (body x r) as [[] r2|msg r2|] eqn:E.
  - specialize (IH r2). destruct (for_each xs body r2); [exact I| |];
      destruct IH as (y & r1 & Hin & H); exists y, r1; (split; [right; exact Hin|exact H]).
  - exists x, r. split; [left|exact E].
  - exists x, r. split; [left|exact E].
Qed.

(** X15. [load] never halts because a module fails to load: such a module is
    reported with a warning and skipped.  When [load] does not return, it
    is a function returned by one of the module scripts that halted, and
    [load] ends the way that function did. *)
Theorem load_halts_only_in_a_returned_function (container : Container) (descendants : bool)
    (r : Registry) :
  match load container descendants r with
  | Returned _ _ => True
  | o =>
    exists obj f r1,
      obj ∈ (if descendants then GetDescendants container else GetChildren container)
      /\ IsAModuleScript obj = true
      /\ loadModule obj = inr (ModuleFunction f) /\ f r1 = o
  end.
Proof.
  unfold load.
  set (instances := if descendants then GetDescendants container else GetChildren container).
  pose proof (for_each_halts instances
                (fun obj =>
                   if negb (IsAModuleScript obj) then ret tt
                   else
                     match loadModule obj with
                     | inl value =>
                       effect (log Warn ("Failed to load module " +:+ GetFullName obj
                                         +:+ ": " +:+ value))
                     | inr (ModuleFunction value) =>
                       effect (log Debug ("Loaded module " +:+ GetFullName obj
                                          +:+ ", calling returned function...")) ;;;
                       value
                     | inr ModuleOther =>
                       effect (log Debug ("Loaded module " +:+ GetFullName obj))
                     end) r) as H.
  assert (Hbody : forall obj r1 o,
            (if negb (IsAModuleScript obj) then ret tt
             else
               match loadModule obj with
               | inl value =>
                 effect (log Warn ("Failed to load module " +:+ GetFullName obj
                                   +:+ ": " +:+ value))
               | inr (ModuleFunction value) =>
                 effect (log Debug ("Loaded module " +:+ GetFullName obj
                                    +:+ ", calling returned function...")) ;;;
                 value
               | inr ModuleOther =>
                 effect (log Debug ("Loaded module " +:+ GetFullName obj))
               end) r1 = o ->
            (forall r2, o <> Returned tt r2) ->
            exists f r2, IsAModuleScript obj = true
                         /\ loadModule obj = inr (ModuleFunction f) /\ f r2 = o).
  { intros obj r1 o Ho Hnot.
    destruct (IsAModuleScript obj); cbn [negb] in Ho;
      [|symmetry in Ho; destruct (Hnot _ Ho)].
    destruct (loadModule obj) as [value|[f|]];
      try (symmetry in Ho; destruct (Hnot _ Ho)).
    unfold bind, effect in Ho. exists f. eexists. split; [reflexivity|].
    split; [reflexivity|]. exact Ho. }
  destruct (for_each instances _ r) as [|msg r'|]; [exact I| |].
  - destruct H as (obj & r1 & Hin & Ho).
    destruct (Hbody obj r1 _ Ho) as (f & r2 & H1 & H2 & H3); [discriminate|].
    exists obj, f, r2. auto.
  - destruct H as (obj & r1 & Hin & Ho).
    destruct (Hbody obj r1 _ Ho) as (f & r2 & H1 & H2 & H3); [discriminate|].
    exists obj, f, r2. auto.
Qed.

(** ** The request handler *)

(** X16. The request handler always answers with the data of the
    interaction [run] settles to; its own [catch] branch is never taken, so
    when the pipeline rejects with a fault the transport gets the failure
    reply ["An error occurred."] and the fault is printed once, not
    twice. *)
Theorem onRequest_answers_with_the_interaction_of_run
    (executeCommand : RegistryPath -> ServerDispatcher.Player -> string ->
                      ServerDispatcher.Console ->
                      ServerDispatcher.Promise ServerDispatcher.CommandInteraction *
                      ServerDispatcher.Console)
    (now : nat) (fromString : string -> RegistryPath)
    (player : ServerDispatcher.Player) (path text : string) (out : ServerDispatcher.Console) :
  ServerDispatcher.run executeCommand now (fromString path) player (Some text) out =
    (ServerDispatcher.Resolved
       (fst (ServerDispatcher.onRequest executeCommand now fromString player path text out)),
     snd (ServerDispatcher.onRequest executeCommand now fromString player path text out))
  /\ match executeCommand (fromString path) player text out with
     | (ServerDispatcher.Resolved interaction, out1) =>
       ServerDispatcher.onRequest executeCommand now fromString player path text out
       = (interaction, out1)
     | (ServerDispatcher.Rejected err, out1) =>
       ServerDispatcher.onRequest executeCommand now fromString player path text out
       = ({| ServerDispatcher.executor := player; ServerDispatcher.text := text;
             ServerDispatcher.replySuccess := Some false;
             ServerDispatcher.replyText := Some "An error occurred.";
             ServerDispatcher.replyTime := Some now |},
          out1 ++ [ServerDispatcher.Name player +:+ " tried to run '" +:+ text
                   +:+ "' but an error occurred: " +:+ err])
     end.
Proof.
  unfold ServerDispatcher.onRequest, ServerDispatcher.run, ServerDispatcher.getData,
    ServerDispatcher.handleError.
  change (default "" (Some text)) with text.
  destruct (executeCommand (fromString path) player text out) as [[interaction|err] out1];
    split; reflexivity.
Qed.

(** ** Argument types *)

Lemma types_keyed_by_name (batches : list (list ArgumentType)) (k : string)
    (t : ArgumentType) :
  types (foldl (fun r ts => registerType ts r) empty_registry batches) !! k = Some t ->
  at_name t = k.
Proof.
  rewrite types_registerType_batches. cbn [types empty_registry].
  generalize (concat batches). intros ts. revert k t.
  induction ts as [|t0 ts IH] using rev_ind; intros k t.
  - cbn. rewrite lookup_empty. discriminate.
  - rewrite foldl_app. cbn [foldl].
    destruct (decide (at_name t0 = k)) as [<-|Hne].
    + rewrite lookup_insert_eq. intros [= <-]. reflexivity.
    + rewrite lookup_insert_ne by exact Hne. apply IH.
Qed.

(** X17. After any sequence of [registerType] calls on a fresh registry,
    [getTypes] lists exactly the descriptors [getType] returns under their
    own names, and no two of the listed descriptors have the same name. *)
Theorem getTypes_lists_what_getType_returns (batches : list (list ArgumentType)) :
  let r := foldl (fun r ts => registerType ts r) empty_registry batches in
  (forall t, t ∈ getTypes r <-> getType r (at_name t) = Some t)
  /\ NoDup (map at_name (getTypes r)).
Proof.
  intros r. pose proof (types_keyed_by_name batches) as Hkey. fold r in Hkey.
  unfold getTypes, getType. split.
  - intros t. split.
    + intros Hin. apply list_elem_of_In, in_map_iff in Hin.
      destruct Hin as ([k t'] & Heq & Hin). cbn in Heq. subst t'.
      apply list_elem_of_In, elem_of_map_to_list in Hin.
      rewrite (Hkey _ _ Hin). exact Hin.
    + intros Hget. apply list_elem_of_In, in_map_iff. exists (at_name t, t).
      split; [reflexivity|]. apply list_elem_of_In, elem_of_map_to_list. exact Hget.
  - rewrite map_map.
    assert (Heq : map (fun e => at_name (snd e)) (map_to_list (types r))
                  = map fst (map_to_list (types r))).
    { apply map_ext_in. intros [k t] Hin. cbn.
      apply list_elem_of_In, elem_of_map_to_list in Hin. exact (Hkey _ _ Hin). }
    rewrite Heq. apply NoDup_fst_map_to_list.
Qed.

(** ** Registering a root group *)

(** X18. Registering a single group definition without a parent always
    ends with a new group object, with empty child tables, under the
    lowercased name in [groups], and with [groupRegistered] fired for it,
    whatever [validatePath] reported: a group (or command) already
    registered at that path is not kept in its way. *)
Theorem registerGroup_root_always_registers
    (array_sort : forall A : Type, (A -> A -> bool) -> list A -> list A)
    (group : GroupOptions) (r : Registry) :
  SortSpec array_sort ->
  go_parent group = None ->
  getGroup (registerGroup array_sort [group] r) [lower (go_name group)] = Some (allocated r)
  /\ deref (registerGroup array_sort [group] r) (allocated r) = new_group group
  /\ last (fired (registerGroup array_sort [group] r))
     = Some (groupRegistered [lower (go_name group)]).
Proof.
  intros Hsort Hparent. unfold registerGroup.
  assert (Hone : array_sort _ by_size (map new_group [group]) = [new_group group]).
  { apply Permutation_length_1_inv. symmetry. apply (sort_permutation _ Hsort). }
  assert (Hnew : new_group group = CommandGroup.create [lower (go_name group)] group).
  { unfold new_group. rewrite Hparent. reflexivity. }
  rewrite Hone, Hnew.
  cbn [registerGroup_loop allocate g_path CommandGroup.create RegistryPath.size length Nat.ltb
       Nat.leb].
  unfold getGroup, deref.
  destruct (validatePath_cases [lower (go_name group)] false r) as [->|[msg ->]];
    cbn; rewrite !lookup_insert_eq, last_snoc; auto.
Qed.

(** Group [a] has the child [a/b]; registering [a] again puts a new, empty
    group object in its place. *)
Lemma registerGroup_root_always_registers_witness :
  let r := registry_after (program sibling_groups) in
  SortSpec table_sort
  /\ go_parent (group_def "A" None) = None
  /\ is_Some (getGroup r ["a"])
  /\ getGroup (registerGroup table_sort [group_def "A" None] r) [lower "A"] = Some (allocated r)
  /\ deref (registerGroup table_sort [group_def "A" None] r) (allocated r)
     = new_group (group_def "A" None).
Proof.
  intros r.
  destruct (registerGroup_root_always_registers table_sort (group_def "A" None) r
              table_sort_spec eq_refl) as (H1 & H2 & _).
  split; [exact table_sort_spec|]. split; [reflexivity|].
  split; [vm_compute; eexists; reflexivity|]. split; [exact H1|exact H2].
Defined.

(** ** Witnesses *)



Lemma unregisterGroup_fires_own_event_last_witness :
  let r := registry_after (program sibling_groups) in
  let r' := registry_after (unregisterGroup table_sort 16 ["a"] r) in
  unregisterGroup table_sort 16 ["a"] r = Returned tt r'
  /\ exists group events,
       getGroup r ["a"] = Some group
       /\ getGroup r' ["a"] = None
       /\ fired r' = fired r ++ events ++ [groupUnregistered (g_path (deref r group))]
       /\ forallb is_unregistered events = true.
Proof.
  intros r r'.
  assert (H : unregisterGroup table_sort 16 ["a"] r = Returned tt r') by (vm_compute; reflexivity).
  split; [exact H|].
  exact (unregisterGroup_fires_own_event_last table_sort 16 ["a"] r r' H).
Defined.

Lemma unregisterGroup_leaf_witness :
  let r := registry_after (program sibling_groups) in
  getGroup r ["a"; "b"] = Some 1
  /\ g_groups (deref r 1) = []
  /\ g_commands (deref r 1) = []
  /\ exists r',
       unregisterGroup table_sort 1 ["a"; "b"] r = Returned tt r'
       /\ groups r' = delete (RegistryPath.toString ["a"; "b"]) (groups r)
       /\ commands r' = commands r
       /\ fired r' = fired r ++ [groupUnregistered (g_path (deref r 1))].
Proof.
  intros r.
  assert (H1 : getGroup r ["a"; "b"] = Some 1) by (vm_compute; reflexivity).
  assert (H2 : g_groups (deref r 1) = []) by (vm_compute; reflexivity).
  assert (H3 : g_commands (deref r 1) = []) by (vm_compute; reflexivity).
  split; [exact H1|]. split; [exact H2|]. split; [exact H3|].
  exact (unregisterGroup_leaf table_sort 0 ["a"; "b"] r 1 H1 H2 H3).
Defined.

Lemma cachePath_lists_path_witness :
  (forall l, table_sort _ by_tail l ≡ₚ l)
  /\ ["a"; "b"] <> []
  /\ existsb (fun val => RegistryPath.equals val ["a"; "b"])
             (default [] (cachePath table_sort ["a"; "b"] ∅ !! parent_key ["a"; "b"])) = true.
Proof.
  split; [exact table_sort_by_tail_permutation|]. split; [discriminate|].
  exact (cachePath_lists_path table_sort table_sort_by_tail_permutation ["a"; "b"] ∅
           ltac:(discriminate)).
Defined.

Lemma unregisterCommand_removes_paths_witness :
  let r := registry_after (program sibling_commands) in
  let command := {| c_id := 1; c_path := ["a"; "x"]; c_aliases := [];
                    c_options := command_def "x" |} in
  getCommand r ["a"; "x"] = Some command
  /\ exists r',
       unregisterCommand table_sort ["a"; "x"] r = Returned tt r'
       /\ (forall q, q ∈ getPaths command -> getCommand r' q = None)
       /\ groups r' = groups r
       /\ fired r' = fired r ++ [commandUnregistered command].
Proof.
  intros r command.
  assert (H : getCommand r ["a"; "x"] = Some command) by (vm_compute; reflexivity).
  split; [exact H|].
  exact (unregisterCommand_removes_paths table_sort ["a"; "x"] r command H).
Defined.

Lemma addCommand_always_registers_witness :
  let r := registry_after (program [RegisterGroup [group_def "a" None]]) in
  let command := {| c_id := 7; c_path := ["a"]; c_aliases := [["b!"]];
                    c_options := command_def "a" |} in
  ["b!"] ∈ getPaths command
  /\ is_Some (getGroup r ["a"])
  /\ getCommand (addCommand table_sort command None r) ["b!"] = Some command.
Proof.
  intros r command.
  assert (H : ["b!"] ∈ getPaths command) by (right; left).
  split; [exact H|]. split; [vm_compute; eexists; reflexivity|].
  exact (addCommand_always_registers table_sort command None r ["b!"] H).
Defined.

Lemma registerGroup_loop_missing_parent_witness :
  let group := new_group (group_def "x" (Some ["nope"])) in
  let rest := [new_group (group_def "c" (Some ["a"; "b"]))] in
  let r := registry_after (program [RegisterGroup [group_def "a" None];
                                    RegisterGroup [group_def "b" (Some ["a"])]]) in
  1 < RegistryPath.size (g_path group)
  /\ getGroup r (RegistryPath.parent (g_path group)) = None
  /\ is_Some (getGroup r ["a"; "b"])
  /\ registerGroup_loop table_sort (group :: rest) r = registerGroup_loop table_sort [group] r
  /\ groups (registerGroup_loop table_sort (group :: rest) r) = groups r.
Proof.
  intros group rest r.
  assert (H1 : 1 < RegistryPath.size (g_path group)) by (vm_compute; lia).
  assert (H2 : getGroup r (RegistryPath.parent (g_path group)) = None)
    by (vm_compute; reflexivity).
  destruct (registerGroup_loop_missing_parent table_sort group rest [] r H1 H2)
    as (H3 & _ & H5).
  split; [exact H1|]. split; [exact H2|]. split; [vm_compute; eexists; reflexivity|].
  split; [exact H3|exact H5].
Defined.

(** ** Registering what the decorators recorded *)

Section Register.

Variable array_sort : forall A : Type, (A -> A -> bool) -> list A -> list A.
Variable alias_paths : RegistryPath -> CommandOptions -> list RegistryPath.
Variable construct : CommandClass -> M unit.

(** Nothing is left to do for an object: it is registered already, or it is
    neither a class nor an argument type. *)
Lemma register_scan_nothing_to_do (metadata : list MetadataObject)
    (registeredObjects : gset nat) (constructors : list MetadataObject) (r : Registry) :
  (forall obj, obj ∈ metadata ->
     mo_id obj ∈ registeredObjects
     \/ (cc_register (mo_class obj) = None
         /\ (mo_hasType obj = false \/ mo_argumentType obj = None))) ->
  register_scan metadata registeredObjects constructors r = (constructors, registeredObjects, r).
Proof.
  induction metadata as [|obj rest IH]; intros Hall; [reflexivity|].
  cbn [register_scan].
  assert (Hrest : register_scan rest registeredObjects constructors r
                  = (constructors, registeredObjects, r)).
  { apply IH. intros o Ho. apply Hall. right. exact Ho. }
  destruct (decide (mo_id obj ∈ registeredObjects)) as [Hin|Hnin]; [exact Hrest|].
  destruct (Hall obj) as [Hin|[Hc Ht]]; [left|contradiction|].
  rewrite Hc. destruct Ht as [->| ->]; [exact Hrest|].
  destruct (mo_hasType obj); exact Hrest.
Qed.

Lemma register_scan_covers (metadata : list MetadataObject) (registeredObjects : gset nat)
    (constructors : list MetadataObject) (r : Registry) :
  let '(constructors', registeredObjects', _) :=
    register_scan metadata registeredObjects constructors r in
  registeredObjects ⊆ registeredObjects'
  /\ (forall ctor, ctor ∈ constructors -> ctor ∈ constructors')
  /\ (forall obj, obj ∈ metadata ->
        mo_id obj ∈ registeredObjects'
        \/ obj ∈ constructors'
        \/ (cc_register (mo_class obj) = None
            /\ (mo_hasType obj = false \/ mo_argumentType obj = None))).
Proof.
  revert registeredObjects constructors r.
  induction metadata as [|obj rest IH]; intros registeredObjects constructors r.
  - cbn. split; [reflexivity|]. split; [auto|]. intros obj H. inversion H.
  - cbn [register_scan].
    assert (Hstep : forall S1 cs1 r1,
              registeredObjects ⊆ S1 ->
              (forall ctor, ctor ∈ constructors -> ctor ∈ cs1) ->
              (mo_id obj ∈ S1 \/ obj ∈ cs1
               \/ (cc_register (mo_class obj) = None
                   /\ (mo_hasType obj = false \/ mo_argumentType obj = None))) ->
              let '(constructors', registeredObjects', _) := register_scan rest S1 cs1 r1 in
              registeredObjects ⊆ registeredObjects'
              /\ (forall ctor, ctor ∈ constructors -> ctor ∈ constructors')
              /\ (forall o, o ∈ obj :: rest ->
                    mo_id o ∈ registeredObjects'
                    \/ o ∈ constructors'
                    \/ (cc_register (mo_class o) = None
                        /\ (mo_hasType o = false \/ mo_argumentType o = None)))).
    { intros S1 cs1 r1 HS Hcs Hobj. specialize (IH S1 cs1 r1).
      destruct (register_scan rest S1 cs1 r1) as [[cs' S'] r'].
      destruct IH as (H1 & H2 & H3).
      split; [set_solver|]. split; [auto|].
      intros o Ho. apply elem_of_cons in Ho. destruct Ho as [->|Ho]; [|auto].
      destruct Hobj as [Hin|[Hin|Hno]]; [left; set_solver|right; left; auto|auto]. }
    destruct (decide (mo_id obj ∈ registeredObjects)) as [Hin|Hnin].
    + apply Hstep; [reflexivity|auto|left; exact Hin].
    + destruct (cc_register (mo_class obj)) eqn:Ec.
      * apply Hstep; [reflexivity| |].
        -- intros ctor Hc. apply elem_of_app. left. exact Hc.
        -- right. left. apply elem_of_app. right. left.
      * destruct (mo_hasType obj) eqn:Et; [destruct (mo_argumentType obj) eqn:Ea|].
        -- apply Hstep; [set_solver|auto|left; set_solver].
        -- apply Hstep; [reflexivity|auto|auto].
        -- apply Hstep; [reflexivity|auto|auto].
Qed.

Lemma register_classes_covers (constructors : list MetadataObject)
    (registeredObjects registeredObjects' : gset nat) (r r' : Registry) :
  register_classes array_sort alias_paths construct constructors registeredObjects r
    = Returned registeredObjects' r' ->
  registeredObjects ⊆ registeredObjects'
  /\ forall ctor, ctor ∈ constructors -> mo_id ctor ∈ registeredObjects'.
Proof.
  revert registeredObjects r.
  induction constructors as [|ctor rest IH]; intros registeredObjects r Hrun.
  - injection Hrun as <- <-. split; [reflexivity|]. intros ctor H. inversion H.
  - cbn [register_classes] in Hrun.
    destruct (registerCommandClass _ _ _ _ r) as [[] r1|msg r1|]; try discriminate.
    destruct (IH _ _ Hrun) as [H1 H2]. split; [set_solver|].
    intros c Hc. apply elem_of_cons in Hc. destruct Hc as [->|Hc]; [set_solver|auto].
Qed.

(** X19. [register()] skips what it has registered: when a call of
    [register()] returns, calling it again over the same recorded objects
    registers nothing more and leaves the registry, and the set of
    registered objects, exactly as they are. *)
Theorem register_again_is_a_no_op (metadata : list MetadataObject)
    (registeredObjects registeredObjects' : gset nat) (r r' : Registry) :
  register array_sort alias_paths construct metadata registeredObjects r
    = Returned registeredObjects' r' ->
  register array_sort alias_paths construct metadata registeredObjects' r'
    = Returned registeredObjects' r'.
Proof.
  unfold register. intros Hrun.
  pose proof (register_scan_covers metadata registeredObjects [] r) as Hscan.
  destruct (register_scan metadata registeredObjects [] r) as [[cs S1] r1].
  destruct Hscan as (_ & _ & Hall).
  destruct (register_classes_covers _ _ _ _ _ Hrun) as [Hsub Hcs].
  rewrite register_scan_nothing_to_do; [reflexivity|].
  intros obj Hobj. destruct (Hall obj Hobj) as [Hin|[Hin|Hno]];
    [left; set_solver|left; auto|right; exact Hno].
Qed.

End Register.

(** A class and an argument type are registered by the first call; the
    second call changes nothing. *)
Lemma register_again_is_a_no_op_witness :
  let commandClass := {| cc_name := "Commands";
                         cc_register := Some {| ro_groups := Some [group_def "a" None] |};
                         cc_group := Some ["a"];
                         cc_properties := [{| cp_name := "x";
                                              cp_command := Some (command_def "x");
                                              cp_group := None |}] |} in
  let noClass := {| cc_name := "number"; cc_register := None; cc_group := None;
                    cc_properties := [] |} in
  let number := {| at_name := "number"; at_expensive := false;
                   at_transform := fun s => Some s; at_suggestions := None |} in
  let metadata := [{| mo_id := 0; mo_class := commandClass; mo_hasType := false;
                      mo_argumentType := None |};
                   {| mo_id := 1; mo_class := noClass; mo_hasType := true;
                      mo_argumentType := Some number |}] in
  let first := register table_sort no_aliases plain_construct metadata ∅ empty_registry in
  let registeredObjects' : gset nat := {[0; 1]} in
  first = Returned registeredObjects' (registry_after first)
  /\ is_Some (getCommand (registry_after first) ["a"; "x"])
  /\ is_Some (getType (registry_after first) "number")
  /\ register table_sort no_aliases plain_construct metadata registeredObjects'
       (registry_after first)
     = Returned registeredObjects' (registry_after first).
Proof.
  intros commandClass noClass number metadata first registeredObjects'.
  assert (H : first = Returned registeredObjects' (registry_after first))
    by (vm_compute; reflexivity).
  split; [exact H|]. split; [vm_compute; eexists; reflexivity|].
  split; [vm_compute; eexists; reflexivity|].
  exact (register_again_is_a_no_op table_sort no_aliases plain_construct metadata ∅
           registeredObjects'
           empty_registry (registry_after first) H).
Defined.
